(** * Rocklab SaaS backend: organisation, invitation and membership lifecycle

    Shallow embedding of [functions/src/index.ts]: the five callable
    functions [createOrg], [createInvite], [acceptInvite],
    [submitOnboarding] and [approveMember], over a model of the part of the
    Firestore Admin API they use ([doc().get], [set], [update], [delete],
    [add], [FieldValue.serverTimestamp]).

    A document id is a string, and [doc(id)] throws for the strings that
    are not the path of a document ([doc_ok]): the empty string, and an id
    whose ['/'] make it the path of a collection.  The exception is not an
    [HttpsError], so the call ends with an internal error.  This is
    modelled where a field of the request goes into the id of the document
    read first (lines 99, 130, 171 and 198 of the source): a reference
    that [doc] refuses finds no document and ends the call ([read]).  An
    update at a refused id (line 203) fails as the update of a missing
    document does, with the same error.  The uids of the identity provider
    and the ids of the auto-id generator are taken to be free of ['/'], so
    that the ids the handlers write at are accepted.

    Every [await] of the source is one atomic store operation.  A handler is
    therefore a finite tree of store operations ([Prog]); it can be run
    alone to completion ([exec]) or one operation at a time, interleaved
    with other calls in flight ([sys_step]). *)

From stdpp Require Import gmap strings list fin_maps.
From Stdlib Require Import ZArith Ascii.

Local Open Scope string_scope.
Local Open Scope Z_scope.

(** ** Documents and the store *)

(** The field values the handlers write: strings, and timestamps that the
    server resolved from [FieldValue.serverTimestamp()]. *)
Inductive Value : Type :=
| VStr (s : string)
| VTime (t : Z).

#[global] Instance Value_eq_dec : EqDecision Value.
Proof. solve_decision. Defined.

(** A document is a JS object: field name to value. *)
Abbreviation Doc := (gmap string Value).

(** The three collections of the source: ['orgs'], ['orgMembers'],
    ['invites']. *)
Inductive Collection : Type := Orgs | OrgMembers | Invites.

#[global] Instance Collection_eq_dec : EqDecision Collection.
Proof. solve_decision. Defined.

Record Store : Type := mkStore {
  orgs : gmap string Doc;
  orgMembers : gmap string Doc;
  invites : gmap string Doc
}.

Definition emptyStore : Store := mkStore ∅ ∅ ∅.

(** [db.collection(c)] *)
Definition collection (c : Collection) (st : Store) : gmap string Doc :=
  match c with
  | Orgs => orgs st
  | OrgMembers => orgMembers st
  | Invites => invites st
  end.

Definition with_collection (c : Collection) (m : gmap string Doc) (st : Store) : Store :=
  match c with
  | Orgs => mkStore m (orgMembers st) (invites st)
  | OrgMembers => mkStore (orgs st) m (invites st)
  | Invites => mkStore (orgs st) (orgMembers st) m
  end.

(** ** Data handed to a write *)

(** A property of an object literal passed to [set], [update] or [add]:
    a JS value (possibly [undefined], the [None] case) or the
    [serverTimestamp()] sentinel. *)
Inductive FieldValue : Type :=
| Lit (v : option Value)
| ServerTimestamp.

Abbreviation DocumentData := (list (string * FieldValue)).

Definition str (s : string) : FieldValue := Lit (Some (VStr s)).

Definition resolve_field (now : Z) (f : FieldValue) : option Value :=
  match f with
  | Lit v => v
  | ServerTimestamp => Some (VTime now)
  end.

(** Firestore validates the data of a write and rejects it when a property
    is [undefined] ([ignoreUndefinedProperties] is not enabled in the
    source).  [resolve] is [None] in that case; otherwise it is the
    document to store, the sentinel replaced by the commit time. *)
Fixpoint resolve (now : Z) (data : DocumentData) : option Doc :=
  match data with
  | [] => Some ∅
  | (f, v) :: rest =>
      match resolve_field now v, resolve now rest with
      | Some x, Some d => Some (<[f := x]> d)
      | _, _ => None
      end
  end.

(** The four mutations the source performs.  [WCreate] is the write inside
    [CollectionReference.add]. *)
Inductive Write : Type :=
| WSet (c : Collection) (key : string) (data : DocumentData)
| WCreate (c : Collection) (key : string) (data : DocumentData)
| WUpdate (c : Collection) (key : string) (data : DocumentData)
| WDelete (c : Collection) (key : string).

(** One committed write.  [None] is a rejected promise.
    - [set] (no merge option) replaces the whole document;
    - [create] fails when the document exists;
    - [update] fails when the document does not exist, and otherwise
      overwrites the listed fields and keeps the others;
    - [delete] succeeds whether or not the document exists. *)
Definition commit (now : Z) (w : Write) (st : Store) : option Store :=
  match w with
  | WSet c key data =>
      match resolve now data with
      | Some d => Some (with_collection c (<[key := d]> (collection c st)) st)
      | None => None
      end
  | WCreate c key data =>
      match resolve now data, collection c st !! key with
      | Some d, None => Some (with_collection c (<[key := d]> (collection c st)) st)
      | _, _ => None
      end
  | WUpdate c key data =>
      match resolve now data, collection c st !! key with
      | Some d, Some old => Some (with_collection c (<[key := d ∪ old]> (collection c st)) st)
      | _, _ => None
      end
  | WDelete c key => Some (with_collection c (delete key (collection c st)) st)
  end.

(** ** Document references *)

(** The number of non-empty pieces of [s] between ['/']; [inside] tells
    whether the piece being read has begun. *)
Fixpoint count_segments (inside : bool) (s : string) : nat :=
  match s with
  | EmptyString => O
  | String c rest =>
      if bool_decide (c = "/"%char) then count_segments false rest
      else (if inside then O else 1%nat) + count_segments true rest
  end.

(** The string holds two ['/'] in a row. *)
Fixpoint double_slash (s : string) : bool :=
  match s with
  | EmptyString => false
  | String c rest =>
      match rest with
      | EmptyString => false
      | String c' _ =>
          bool_decide (c = "/"%char) && bool_decide (c' = "/"%char) || double_slash rest
      end
  end.

(** [db.collection(c).doc(id)] accepts [id] or throws.  The id must be a
    non-empty string without ["//"], and the path it makes below the
    collection must be that of a document: an odd number of pieces. *)
Definition doc_ok (id : string) : bool :=
  negb (bool_decide (id = EmptyString)) && negb (double_slash id)
  && Nat.odd (count_segments false id).


(** [db.collection(c).doc(id).get()]: the snapshot read ([Some None] when
    no document is there), or [None] when [doc(id)] throws.  A store holds
    no document at an id that [doc] refuses, so a document that is found
    was reached through an accepted id; the refusal shows where nothing is
    found. *)
Definition read (c : Collection) (id : string) (st : Store) : option (option Doc) :=
  match collection c st !! id with
  | Some d => Some (Some d)
  | None => if doc_ok id then Some None else None
  end.

Global Arguments read : simpl never.


(** ** Errors and responses *)

Inductive ErrorCode : Type :=
| unauthenticated
| invalid_argument
| permission_denied
| not_found
| internal.

#[global] Instance ErrorCode_eq_dec : EqDecision ErrorCode.
Proof. solve_decision. Defined.

Record HttpsError : Type := mkHttpsError { code : ErrorCode; message : string }.

(** What [onCall] reports for an exception that is not an [HttpsError]
    (here: a rejected store operation). *)
Definition internalError : HttpsError := mkHttpsError internal "INTERNAL".

(** The objects the handlers return ([success: true] in all of them). *)
Inductive Response : Type :=
| CreateOrgResponse (orgId : string)
| CreateInviteResponse (inviteId : string)
| AcceptInviteResponse (orgId : option Value)
| SuccessResponse.

(** ** Handlers as trees of store operations *)

(** What is left of a call between two operations:
    - [NewId k]: a document id is generated ([doc()] without argument, or
      the id inside [add]);
    - [Get c key k]: [await db.collection(c).doc(key).get()], [k] applied
      to the data of the snapshot, [None] when the document does not
      exist; the call ends with an internal error when [doc(key)] throws;
    - [Do w k]: an awaited write; a rejected write ends the call with an
      internal error. *)
Inductive Prog : Type :=
| Return (r : Response)
| Throw (e : HttpsError)
| NewId (k : string -> Prog)
| Get (c : Collection) (key : string) (k : option Doc -> Prog)
| Do (w : Write) (k : Prog).

(** What the environment contributes to one operation: the server's commit
    time and the identifier an auto-id generator hands out. *)
Record Env : Type := mkEnv { now : Z; autoId : string }.

(** One operation of a call in flight. *)
Definition step (e : Env) (st : Store) (p : Prog) : Store * Prog :=
  match p with
  | Return _ | Throw _ => (st, p)
  | NewId k => (st, k (autoId e))
  | Get c key k =>
      match read c key st with
      | Some snap => (st, k snap)
      | None => (st, Throw internalError)
      end
  | Do w k =>
      match commit (now e) w st with
      | Some st' => (st', k)
      | None => (st, Throw internalError)
      end
  end.

Inductive Outcome : Type :=
| Returned (r : Response)
| Threw (e : HttpsError).

Record Result : Type := mkResult {
  final : Store;
  writes : list Write;
  outcome : Outcome
}.

Definition logged (w : Write) (r : Result) : Result :=
  mkResult (final r) (w :: writes r) (outcome r).

(** A call run alone from start to end; [ev n] is the environment of its
    [n]-th operation.  [writes] lists the committed writes in order. *)
Fixpoint exec (ev : nat -> Env) (st : Store) (p : Prog) : Result :=
  match p with
  | Return r => mkResult st [] (Returned r)
  | Throw e => mkResult st [] (Threw e)
  | NewId k => exec (fun n => ev (S n)) st (k (autoId (ev O)))
  | Get c key k =>
      match read c key st with
      | Some snap => exec (fun n => ev (S n)) st (k snap)
      | None => mkResult st [] (Threw internalError)
      end
  | Do w k =>
      match commit (now (ev O)) w st with
      | Some st' => logged w (exec (fun n => ev (S n)) st' k)
      | None => mkResult st [] (Threw internalError)
      end
  end.

(** The call in flight that an outcome leaves behind. *)
Definition finished (o : Outcome) : Prog :=
  match o with
  | Returned r => Return r
  | Threw e => Throw e
  end.

(** [n] operations of one call, nothing else touching the store. *)
Fixpoint steps (n : nat) (ev : nat -> Env) (st : Store) (p : Prog) : Store * Prog :=
  match n with
  | O => (st, p)
  | S n' =>
      let '(st', p') := step (ev O) st p in
      steps n' (fun i => ev (S i)) st' p'
  end.

(** ** JavaScript expressions used by the handlers *)

(** [!s] on a string: only the empty string is falsy. *)
Definition falsy (s : string) : bool := bool_decide (s = EmptyString).

(** A template-literal hole [${v}]: a string is spliced as it is,
    [undefined] prints as its name, and a Firestore [Timestamp] (which has
    no [toString] of its own) as a plain object. *)
Definition template (v : option Value) : string :=
  match v with
  | Some (VStr s) => s
  | Some (VTime _) => "[object Object]"
  | None => "undefined"
  end.

(** The document id [`${orgId}_${uid}`] of a membership. *)
Definition memberDocId (orgId uid : string) : string := orgId +:+ "_" +:+ uid.

(** [['owner', 'admin'].includes(v)] *)
Definition includes_owner_admin (v : option Value) : bool :=
  bool_decide (v = Some (VStr "owner")) || bool_decide (v = Some (VStr "admin")).

(** [v !== email], [v] read from a document, [email] from the auth token. *)
Definition strict_neq (v : option Value) (email : option string) : bool :=
  negb (bool_decide (v = VStr <$> email)).

(** ** Requests *)

(** [request.auth]: the caller's uid and [token.email], which the identity
    provider may leave out. *)
Record AuthData : Type := mkAuth { uid : string; token_email : option string }.

Record CreateOrgData : Type := mkCreateOrgData { name : string; slug : string }.

(** [request.data] of createInvite.  The role is declared
    ['admin' | 'staff']; the declaration is not checked when a request
    arrives, so the role is whatever string the client sent. *)
Record CreateInviteData : Type := mkCreateInviteData {
  ci_orgId : string;
  ci_email : string;
  ci_role : string
}.

Record AcceptInviteData : Type := mkAcceptInviteData { inviteId : string }.

Record OnboardingData : Type := mkOnboardingData {
  ob_orgId : string;
  fullName : string;
  phone : string
}.

Record ApproveMemberData : Type := mkApproveMemberData {
  am_orgId : string;
  memberId : string
}.

(** ** The five callable functions *)

(** The object [createOrg] writes to [orgs/{orgId}]. *)
Definition orgData (orgId nm sl ownerUid : string) : DocumentData :=
  [("id", str orgId); ("name", str nm); ("slug", str sl); ("ownerId", str ownerUid);
   ("createdAt", ServerTimestamp); ("status", str "active")].

(** The object [createOrg] writes to [orgMembers/{orgId}_{uid}]. *)
Definition ownerData (orgId u email : string) : DocumentData :=
  [("orgId", str orgId); ("uid", str u); ("email", str email); ("role", str "owner");
   ("status", str "active"); ("joinedAt", ServerTimestamp)].

Definition createOrg (auth : option AuthData) (data : CreateOrgData) : Prog :=
  match auth with
  | None => Throw (mkHttpsError unauthenticated "User must be logged in.")
  | Some a =>
      let email := default EmptyString (token_email a) in
      if falsy (name data) || falsy (slug data) then
        Throw (mkHttpsError invalid_argument "Organization name and slug are required.")
      else
        NewId (fun orgId =>
        Do (WSet Orgs orgId (orgData orgId (name data) (slug data) (uid a)))
       (Do (WSet OrgMembers (memberDocId orgId (uid a)) (ownerData orgId (uid a) email))
       (Return (CreateOrgResponse orgId))))
  end.

(** The object [createInvite] adds to [invites]. *)
Definition inviteData (d : CreateInviteData) (inviter : string) : DocumentData :=
  [("orgId", str (ci_orgId d)); ("email", str (ci_email d)); ("role", str (ci_role d));
   ("invitedBy", str inviter); ("status", str "pending"); ("createdAt", ServerTimestamp)].

Definition createInvite (auth : option AuthData) (data : CreateInviteData) : Prog :=
  match auth with
  | None => Throw (mkHttpsError unauthenticated "Must be logged in to invite.")
  | Some a =>
      Get OrgMembers (memberDocId (ci_orgId data) (uid a)) (fun requesterMembership =>
      match requesterMembership with
      | Some m =>
          if includes_owner_admin (m !! "role") then
            (* [add]: a generated id, then [create] *)
            NewId (fun inviteRef =>
            Do (WCreate Invites inviteRef (inviteData data (uid a)))
           (Return (CreateInviteResponse inviteRef)))
          else Throw (mkHttpsError permission_denied "Only Admins can invite users.")
      | None => Throw (mkHttpsError permission_denied "Only Admins can invite users.")
      end)
  end.

(** The object [acceptInvite] writes to [orgMembers/{orgId}_{uid}]; [inv]
    is the invitation just read. *)
Definition memberData (inv : Doc) (u : string) (email : option string) : DocumentData :=
  [("orgId", Lit (inv !! "orgId")); ("uid", str u); ("email", Lit (VStr <$> email));
   ("role", Lit (inv !! "role")); ("status", str "pending_onboarding");
   ("joinedAt", ServerTimestamp)].

Definition acceptInvite (auth : option AuthData) (data : AcceptInviteData) : Prog :=
  match auth with
  | None => Throw (mkHttpsError unauthenticated "Please sign in to accept invitation.")
  | Some a =>
      Get Invites (inviteId data) (fun inviteSnap =>
      match inviteSnap with
      | None => Throw (mkHttpsError not_found "Invitation not found or expired.")
      | Some inv =>
          if strict_neq (inv !! "email") (token_email a) then
            Throw (mkHttpsError permission_denied
                     "This invite was sent to a different email address.")
          else
            Do (WSet OrgMembers (memberDocId (template (inv !! "orgId")) (uid a))
                  (memberData inv (uid a) (token_email a)))
           (Do (WDelete Invites (inviteId data))
           (Return (AcceptInviteResponse (inv !! "orgId"))))
      end)
  end.

(** The fields [submitOnboarding] updates. *)
Definition onboardingData (d : OnboardingData) : DocumentData :=
  [("fullName", str (fullName d)); ("phone", str (phone d)); ("status", str "active");
   ("onboardedAt", ServerTimestamp)].

Definition submitOnboarding (auth : option AuthData) (data : OnboardingData) : Prog :=
  match auth with
  | None => Throw (mkHttpsError unauthenticated "Authentication required.")
  | Some a =>
      let memberRef := memberDocId (ob_orgId data) (uid a) in
      Get OrgMembers memberRef (fun memberSnap =>
      match memberSnap with
      | None => Throw (mkHttpsError permission_denied "Member record not found.")
      | Some _ =>
          Do (WUpdate OrgMembers memberRef (onboardingData data))
         (Return SuccessResponse)
      end)
  end.

(** The fields [approveMember] updates. *)
Definition approvalData (approver : string) : DocumentData :=
  [("status", str "active"); ("approvedAt", ServerTimestamp); ("approvedBy", str approver)].

Definition approveMember (auth : option AuthData) (data : ApproveMemberData) : Prog :=
  match auth with
  | None => Throw (mkHttpsError unauthenticated "Authentication required.")
  | Some a =>
      Get OrgMembers (memberDocId (am_orgId data) (uid a)) (fun requesterSnap =>
      match requesterSnap with
      | Some m =>
          if includes_owner_admin (m !! "role") then
            Do (WUpdate OrgMembers (memberDocId (am_orgId data) (memberId data))
                  (approvalData (uid a)))
           (Return SuccessResponse)
          else Throw (mkHttpsError permission_denied "Not authorized.")
      | None => Throw (mkHttpsError permission_denied "Not authorized.")
      end)
  end.

(** ** Calls in flight *)

Inductive Request : Type :=
| CreateOrg (auth : option AuthData) (data : CreateOrgData)
| CreateInvite (auth : option AuthData) (data : CreateInviteData)
| AcceptInvite (auth : option AuthData) (data : AcceptInviteData)
| SubmitOnboarding (auth : option AuthData) (data : OnboardingData)
| ApproveMember (auth : option AuthData) (data : ApproveMemberData).

Definition handle (r : Request) : Prog :=
  match r with
  | CreateOrg auth data => createOrg auth data
  | CreateInvite auth data => createInvite auth data
  | AcceptInvite auth data => acceptInvite auth data
  | SubmitOnboarding auth data => submitOnboarding auth data
  | ApproveMember auth data => approveMember auth data
  end.

(** The store together with the calls that have started; a finished call
    stays in the list as its [Return] or [Throw]. *)
Record Config : Type := mkConfig { store : Store; calls : list Prog }.

Definition initial : Config := mkConfig emptyStore [].

(** A request arrives, or call number [i] performs its next operation.  A
    call that is never resumed again is a call that crashed or timed out. *)
Inductive Event : Type :=
| Arrive (r : Request)
| Resume (i : nat) (e : Env).

Definition sys_step (cfg : Config) (ev : Event) : Config :=
  match ev with
  | Arrive r => mkConfig (store cfg) (calls cfg ++ [handle r])
  | Resume i e =>
      match calls cfg !! i with
      | Some p =>
          let '(st', p') := step e (store cfg) p in
          mkConfig st' (<[i := p']> (calls cfg))
      | None => cfg
      end
  end.

Definition run (evs : list Event) (cfg : Config) : Config := foldl sys_step cfg evs.

Definition reachable (cfg : Config) : Prop := exists evs, run evs initial = cfg.

(** ** Documents the handlers are expected to leave in the store *)

Definition orgDoc (orgId nm sl owner : string) (t : Z) : Doc :=
  {[ "id" := VStr orgId; "name" := VStr nm; "slug" := VStr sl;
     "ownerId" := VStr owner; "createdAt" := VTime t; "status" := VStr "active" ]}.

Definition ownerDoc (orgId u email : string) (t : Z) : Doc :=
  {[ "orgId" := VStr orgId; "uid" := VStr u; "email" := VStr email;
     "role" := VStr "owner"; "status" := VStr "active"; "joinedAt" := VTime t ]}.

Definition inviteDoc (orgId email role inviter : string) (t : Z) : Doc :=
  {[ "orgId" := VStr orgId; "email" := VStr email; "role" := VStr role;
     "invitedBy" := VStr inviter; "status" := VStr "pending"; "createdAt" := VTime t ]}.

Definition memberDoc (orgId : Value) (u email : string) (role : Value) (t : Z) : Doc :=
  {[ "orgId" := orgId; "uid" := VStr u; "email" := VStr email;
     "role" := role; "status" := VStr "pending_onboarding"; "joinedAt" := VTime t ]}.

(** ** Role and authorisation predicates *)

(** The closed set [owner | admin | staff]. *)
Definition is_role (v : option Value) : Prop :=
  v = Some (VStr "owner") ∨ v = Some (VStr "admin") ∨ v = Some (VStr "staff").

(** The roles an invitation may carry. *)
Definition is_invite_role (v : option Value) : Prop :=
  v = Some (VStr "admin") ∨ v = Some (VStr "staff").

(** The caller [u] holds an owner or admin membership of [orgId]. *)
Definition authorized (st : Store) (orgId u : string) : Prop :=
  ∃ m, orgMembers st !! memberDocId orgId u = Some m ∧
       (m !! "role" = Some (VStr "owner") ∨ m !! "role" = Some (VStr "admin")).

(** ** A concrete history

    The scenario of the system description: [U1] founds Acme, invites
    [b@x.com] as staff, [U2] accepts and submits the onboarding form. *)
Module Scenario.

Definition U1 : AuthData := mkAuth "U1" (Some "a@x.com").
Definition U2 : AuthData := mkAuth "U2" (Some "b@x.com").

(** Times 100, 101, ... and the same generated id at every operation. *)
Definition clock (id : string) (n : nat) : Env := mkEnv (100 + Z.of_nat n) id.

Definition acme : CreateOrgData := mkCreateOrgData "Acme" "acme".
Definition invite_b : CreateInviteData := mkCreateInviteData "O1" "b@x.com" "staff".
Definition invite_a : CreateInviteData := mkCreateInviteData "O1" "a@x.com" "staff".
Definition accept_I1 : AcceptInviteData := mkAcceptInviteData "I1".
Definition bob : OnboardingData := mkOnboardingData "O1" "Bob" "555-1234".
Definition approve_U2 : ApproveMemberData := mkApproveMemberData "O1" "U2".

(** After [createOrg]. *)
Definition founded : Store := final (exec (clock "O1") emptyStore (createOrg (Some U1) acme)).
(** After [createInvite] for [b@x.com]. *)
Definition invited : Store := final (exec (clock "I1") founded (createInvite (Some U1) invite_b)).
(** After [acceptInvite] by [U2]. *)
Definition accepted : Store := final (exec (clock "none") invited (acceptInvite (Some U2) accept_I1)).
(** After [submitOnboarding] by [U2]. *)
Definition onboarded : Store := final (exec (clock "none") accepted (submitOnboarding (Some U2) bob)).

(** The membership of [U2] once onboarded. *)
Definition bob_doc : Doc :=
  {[ "fullName" := VStr "Bob"; "phone" := VStr "555-1234"; "status" := VStr "active";
     "onboardedAt" := VTime 101 ]} ∪
  memberDoc (VStr "O1") "U2" "b@x.com" (VStr "staff") 101.

(** The owner invites their own address. *)
Definition self_invited : Store :=
  final (exec (clock "I1") founded (createInvite (Some U1) invite_a)).

(** The same history as events of the interleaved system, up to the
    committed invitation (calls 0 and 1). *)
Definition setup : list Event :=
  [Arrive (CreateOrg (Some U1) acme);
   Resume 0 (mkEnv 100 "O1"); Resume 0 (mkEnv 101 "none"); Resume 0 (mkEnv 102 "none");
   Arrive (CreateInvite (Some U1) invite_b);
   Resume 1 (mkEnv 103 "none"); Resume 1 (mkEnv 104 "I1"); Resume 1 (mkEnv 105 "none")].

(** [createOrg] stopped between its two writes. *)
Definition half_created : list Event :=
  [Arrive (CreateOrg (Some U1) acme);
   Resume 0 (mkEnv 100 "O1"); Resume 0 (mkEnv 101 "none")].

(** [U2] sends [acceptInvite] twice (calls 2 and 3); both read the
    invitation before either writes. *)
Definition both_read : list Event :=
  setup ++
  [Arrive (AcceptInvite (Some U2) accept_I1);
   Arrive (AcceptInvite (Some U2) accept_I1);
   Resume 2 (mkEnv 106 "none"); Resume 3 (mkEnv 107 "none")].

(** Call 2 has written the membership and not yet deleted the
    invitation. *)
Definition first_wrote : list Event := both_read ++ [Resume 2 (mkEnv 108 "none")].

(** Both calls run to their end. *)
Definition both_done : list Event :=
  first_wrote ++
  [Resume 3 (mkEnv 109 "none"); Resume 2 (mkEnv 110 "none"); Resume 3 (mkEnv 111 "none")].

End Scenario.

(** ** Further vocabulary for the properties of the handlers *)

(** [request.auth] of a request. *)
Definition request_auth (r : Request) : option AuthData :=
  match r with
  | CreateOrg auth _ | CreateInvite auth _ | AcceptInvite auth _
  | SubmitOnboarding auth _ | ApproveMember auth _ => auth
  end.

(** The result of a call that stopped with [e] before writing. *)
Definition refused (st : Store) (e : HttpsError) : Result := mkResult st [] (Threw e).

(** The fields [submitOnboarding] sets, at commit time [t]. *)
Definition onboardingDoc (d : OnboardingData) (t : Z) : Doc :=
  {[ "fullName" := VStr (fullName d); "phone" := VStr (phone d);
     "status" := VStr "active"; "onboardedAt" := VTime t ]}.

(** The fields [approveMember] sets, at commit time [t]. *)
Definition approvalDoc (approver : string) (t : Z) : Doc :=
  {[ "status" := VStr "active"; "approvedAt" := VTime t; "approvedBy" := VStr approver ]}.

(** No underscore occurs in the string. *)
Fixpoint no_underscore (s : string) : bool :=
  match s with
  | EmptyString => true
  | String c rest => negb (bool_decide (c = "_"%char)) && no_underscore rest
  end.

(** A call in flight that finishes within [n] operations, whatever it
    reads. *)
Inductive within : nat → Prog → Prop :=
| within_Return n r : within n (Return r)
| within_Throw n e : within n (Throw e)
| within_NewId n k : (∀ id, within n (k id)) → within (S n) (NewId k)
| within_Get n c key k : (∀ snap, within n (k snap)) → within (S n) (Get c key k)
| within_Do n w k : within n k → within (S n) (Do w k).

(** A call in flight all of whose remaining writes satisfy [W], provided
    each snapshot it reads satisfies [S]. *)
Inductive keeps (S : Collection → option Doc → Prop) (W : Write → Prop) : Prog → Prop :=
| keeps_Return r : keeps S W (Return r)
| keeps_Throw e : keeps S W (Throw e)
| keeps_NewId k : (∀ id, keeps S W (k id)) → keeps S W (NewId k)
| keeps_Get c key k : (∀ snap, S c snap → keeps S W (k snap)) → keeps S W (Get c key k)
| keeps_Do w k : W w → keeps S W k → keeps S W (Do w k).

(** A write that removes no organisation and no membership. *)
Definition no_delete (w : Write) : Prop :=
  match w with
  | WDelete Orgs _ | WDelete OrgMembers _ => False
  | _ => True
  end.

Definition any_snapshot (c : Collection) (snap : option Doc) : Prop := True.

(** The store holds organisations at the ids [DO] and memberships at the
    ids [DM]. *)
Definition holds_docs (DO DM : gset string) (st : Store) : Prop :=
  DO ⊆ dom (orgs st) ∧ DM ⊆ dom (orgMembers st).

(** *** The shape of stored documents *)

Definition is_string (v : option Value) : Prop := ∃ s, v = Some (VStr s).

Definition is_nonempty_string (v : option Value) : Prop :=
  ∃ s, v = Some (VStr s) ∧ s ≠ EmptyString.

(** An organisation stored at [key]. *)
Definition org_shape (key : string) (d : Doc) : Prop :=
  d !! "id" = Some (VStr key) ∧
  d !! "status" = Some (VStr "active") ∧
  is_nonempty_string (d !! "name") ∧
  is_nonempty_string (d !! "slug") ∧
  is_string (d !! "ownerId").

(** The document id of a membership is the one its own fields spell. *)
Definition member_key_ok (key : string) (m : Doc) : Prop :=
  ∃ o u, m !! "orgId" = Some (VStr o) ∧ m !! "uid" = Some (VStr u) ∧ key = memberDocId o u.

(** Where a membership is in its life: fresh from an invitation, or active
    as a founder, after onboarding or after approval. *)
Definition member_status_ok (m : Doc) : Prop :=
  (m !! "status" = Some (VStr "pending_onboarding") ∧
   is_string (m !! "role") ∧
   m !! "onboardedAt" = None ∧ m !! "approvedBy" = None)
  ∨
  (m !! "status" = Some (VStr "active") ∧
   (m !! "role" = Some (VStr "owner") ∨ is_Some (m !! "onboardedAt")
    ∨ is_Some (m !! "approvedBy"))).

(** The profile fields are set together, by onboarding. *)
Definition member_profile_ok (m : Doc) : Prop :=
  (m !! "onboardedAt" = None ∧ m !! "fullName" = None ∧ m !! "phone" = None)
  ∨
  (is_Some (m !! "onboardedAt") ∧ is_string (m !! "fullName") ∧ is_string (m !! "phone")).

Definition member_shape (key : string) (m : Doc) : Prop :=
  member_key_ok key m ∧ is_string (m !! "email") ∧
  member_status_ok m ∧ member_profile_ok m.

Definition invite_shape (i : Doc) : Prop :=
  is_string (i !! "orgId") ∧ is_string (i !! "email") ∧ is_string (i !! "role") ∧
  is_string (i !! "invitedBy") ∧ i !! "status" = Some (VStr "pending").

Definition store_shape (st : Store) : Prop :=
  (∀ key d, orgs st !! key = Some d → org_shape key d) ∧
  (∀ key m, orgMembers st !! key = Some m → member_shape key m) ∧
  (∀ key i, invites st !! key = Some i → invite_shape i).

(** What a handler relies on of a snapshot read in a store of that
    shape. *)
Definition shape_snapshot (c : Collection) (snap : option Doc) : Prop :=
  match c, snap with
  | Invites, Some i => invite_shape i
  | _, _ => True
  end.

(** A write under which [store_shape] is kept. *)
Definition shape_write (w : Write) : Prop :=
  ∀ t st st', store_shape st → commit t w st = Some st' → store_shape st'.

(** ** Invariants of the interleaved system *)

(** The request satisfies [P] when the event is its arrival. *)
Definition admits (P : Request → Prop) (ev : Event) : Prop :=
  match ev with
  | Arrive req => P req
  | Resume _ _ => True
  end.

Definition any_request (req : Request) : Prop := True.

(** The role of the declared type ['admin' | 'staff']. *)
Definition declared_role (r : string) : Prop := r = "admin" ∨ r = "staff".

(** A request whose payload is of its declared type, as far as the role
    goes. *)
Definition declared (req : Request) : Prop :=
  match req with
  | CreateInvite _ data => declared_role (ci_role data)
  | _ => True
  end.

(** A state reached by requests of the declared type only. *)
Definition reachable_declared (cfg : Config) : Prop :=
  ∃ evs, Forall (admits declared) evs ∧ run evs initial = cfg.

(** Every stored role is of the closed set, an invitation's among admin and
    staff. *)
Definition roles_closed (st : Store) : Prop :=
  (∀ key m, orgMembers st !! key = Some m → is_role (m !! "role")) ∧
  (∀ key i, invites st !! key = Some i → is_invite_role (i !! "role")).

Definition role_snapshot (c : Collection) (snap : option Doc) : Prop :=
  match c, snap with
  | Invites, Some i => is_invite_role (i !! "role")
  | _, _ => True
  end.

(** A write under which [roles_closed] is kept. *)
Definition role_write (w : Write) : Prop :=
  ∀ t st st', roles_closed st → commit t w st = Some st' → roles_closed st'.

(** The organisation ids a write adds. *)
Definition orgs_written (w : Write) : gset string :=
  match w with
  | WSet Orgs key _ | WCreate Orgs key _ => {[ key ]}
  | _ => ∅
  end.

(** The call is createOrg for the generated id [o] with its Organization
    written: the owner Membership is its next write, or it has returned. *)
Definition owner_write_due (o : string) (p : Prog) : Prop :=
  (∃ u email, p = Do (WSet OrgMembers (memberDocId o u) (ownerData o u email))
                     (Return (CreateOrgResponse o)))
  ∨ p = Return (CreateOrgResponse o).

(** A Membership as createOrg writes it: active, and neither onboarded nor
    approved since. *)
Definition founder_doc (m : Doc) : Prop :=
  m !! "status" = Some (VStr "active") ∧
  m !! "onboardedAt" = None ∧ m !! "approvedBy" = None.

(** Every such Membership names an Organization of the store. *)
Definition founders_have_org (st : Store) : Prop :=
  ∀ key m, orgMembers st !! key = Some m → founder_doc m →
    ∃ o, m !! "orgId" = Some (VStr o) ∧ is_Some (orgs st !! o).

(** A write that keeps [founders_have_org] in a store that holds the
    organisations [O]. *)
Definition founder_write (O : gset string) (w : Write) : Prop :=
  ∀ t st st', O ⊆ dom (orgs st) → founders_have_org st → commit t w st = Some st' →
    founders_have_org st'.

(** A call in flight that deletes no organisation, and writes an owner
    Membership or returns an organisation id only for an organisation of
    [O] or one it has written before. *)
Inductive org_first (O : gset string) : Prog → Prop :=
| org_first_Return r :
    (∀ o, r = CreateOrgResponse o → o ∈ O) → org_first O (Return r)
| org_first_Throw e : org_first O (Throw e)
| org_first_NewId k : (∀ id, org_first O (k id)) → org_first O (NewId k)
| org_first_Get c key k : (∀ snap, org_first O (k snap)) → org_first O (Get c key k)
| org_first_Do w k :
    no_delete w →
    (∀ key o u email, w = WSet OrgMembers key (ownerData o u email) → o ∈ O) →
    founder_write O w →
    org_first (O ∪ orgs_written w) k → org_first O (Do w k).

(** ** More of the concrete history *)
Module Cases.

(** A caller whose token carries no email. *)
Definition U3 : AuthData := mkAuth "U3" None.

(** A user whose uid contains an underscore, and the organisation they
    found. *)
Definition eve : AuthData := mkAuth "eve_U3" (Some "e@x.com").
Definition eve_founded : Store :=
  final (exec (Scenario.clock "O1") emptyStore (createOrg (Some eve) Scenario.acme)).

(** The membership [U2] holds after accepting. *)
Definition pending_doc : Doc := memberDoc (VStr "O1") "U2" "b@x.com" (VStr "staff") 101.

(** The invitation [I1]. *)
Definition invite_I1 : Doc := inviteDoc "O1" "b@x.com" "staff" "U1" 102.

(** [U2] accepts the invitation once, as call 2 of the interleaved
    system. *)
Definition accept_once : list Event :=
  [Arrive (AcceptInvite (Some Scenario.U2) Scenario.accept_I1);
   Resume 2 (mkEnv 106 "none"); Resume 2 (mkEnv 107 "none"); Resume 2 (mkEnv 108 "none")].

(** A createInvite payload whose role is none of the declared ones; the
    handler receives [request.data] as it was sent. *)
Definition invite_superuser : CreateInviteData :=
  mkCreateInviteData "O1" "b@x.com" "superuser".

(** [U1] founds Acme and invites [b@x.com] as superuser (calls 0 and 1);
    then [U2] accepts (call 2). *)
Definition superuser_invited : list Event :=
  [Arrive (CreateOrg (Some Scenario.U1) Scenario.acme);
   Resume 0 (mkEnv 100 "O1"); Resume 0 (mkEnv 101 "none"); Resume 0 (mkEnv 102 "none");
   Arrive (CreateInvite (Some Scenario.U1) invite_superuser);
   Resume 1 (mkEnv 103 "none"); Resume 1 (mkEnv 104 "I1"); Resume 1 (mkEnv 105 "none")].

Definition superuser_accepted : list Event := (superuser_invited ++ accept_once)%list.



End Cases.

(** * Properties *)

(** ** JavaScript expressions *)

Lemma falsy_false (s : string) : s ≠ EmptyString → falsy s = false.
Proof. intros H. unfold falsy. by apply bool_decide_eq_false. Qed.

Lemma includes_owner_admin_true (v : option Value) :
  includes_owner_admin v = true ↔ v = Some (VStr "owner") ∨ v = Some (VStr "admin").
Proof.
  unfold includes_owner_admin.
  rewrite orb_true_iff, !bool_decide_eq_true. done.
Qed.

Lemma strict_neq_true (v : option Value) (email : option string) :
  strict_neq v email = true ↔ v ≠ VStr <$> email.
Proof. unfold strict_neq. by rewrite negb_true_iff, bool_decide_eq_false. Qed.

Lemma strict_neq_false (v : option Value) (email : option string) :
  strict_neq v email = false ↔ v = VStr <$> email.
Proof. unfold strict_neq. by rewrite negb_false_iff, bool_decide_eq_true. Qed.

(** ** Document references *)

Lemma read_Some (c : Collection) (id : string) (st : Store) (snap : option Doc) :
  read c id st = Some snap → snap = collection c st !! id.
Proof.
  unfold read. destruct (collection c st !! id); [by intros [= <-]|].
  destruct (doc_ok id); [by intros [= <-]|done].
Qed.

Lemma read_found (c : Collection) (id : string) (st : Store) (d : Doc) :
  collection c st !! id = Some d → read c id st = Some (Some d).
Proof. unfold read. by intros ->. Qed.

Lemma read_missing (c : Collection) (id : string) (st : Store) :
  collection c st !! id = None → read c id st = if doc_ok id then Some None else None.
Proof. unfold read. by intros ->. Qed.

(** Case analysis on the document a [read] of the goal looks up. *)
Tactic Notation "case_read" ident(d) ident(H) :=
  match goal with
  | |- context [read ?c ?id ?st] =>
      destruct (collection c st !! id) as [d|] eqn:H;
      [rewrite (read_found c id st d H) | rewrite (read_missing c id st H)];
      cbn [collection] in H
  end.







(** ** The two ways of running a call agree *)

(** [exec] is the call stepped until it has finished: some number of
    operations takes the call to its outcome and the store to [final]. *)
Lemma exec_steps (ev : nat → Env) (st : Store) (p : Prog) :
  ∃ n, steps n ev st p = (final (exec ev st p), finished (outcome (exec ev st p))).
Proof.
  revert ev st. induction p as [r|e|k IH|c key k IH|w k IH]; intros ev st.
  - by exists 0%nat.
  - by exists 0%nat.
  - destruct (IH (autoId (ev 0%nat)) (λ n, ev (S n)) st) as [n Hn]. by exists (S n).
  - cbn [exec]. destruct (read c key st) as [snap|] eqn:Hr.
    + destruct (IH snap (λ n, ev (S n)) st) as [n Hn]. exists (S n). cbn. by rewrite Hr.
    + exists 1%nat. cbn. by rewrite Hr.
  - cbn [exec]. destruct (commit (now (ev 0%nat)) w st) as [st'|] eqn:Hc.
    + destruct (IH (λ n, ev (S n)) st') as [n Hn]. exists (S n). cbn. by rewrite Hc.
    + exists 1%nat. cbn. by rewrite Hc.
Qed.

(** ** Calls run alone *)

(** C5: for an authenticated caller and non-empty name and slug, createOrg
    returns the generated organisation id, having written (and nothing
    else) the Organization under that id with ownerId the caller's uid and
    status active, and the Membership keyed [(orgId, uid)] with that same
    orgId, role owner and status active. *)
Theorem createOrg_creates_org_and_owner (ev : nat → Env) (st : Store) (a : AuthData)
    (data : CreateOrgData) :
  name data ≠ EmptyString → slug data ≠ EmptyString →
  let orgId := autoId (ev 0%nat) in
  let key := memberDocId orgId (uid a) in
  let r := exec ev st (createOrg (Some a) data) in
  let org := orgDoc orgId (name data) (slug data) (uid a) (now (ev 1%nat)) in
  let owner := ownerDoc orgId (uid a) (default EmptyString (token_email a)) (now (ev 2%nat)) in
  outcome r = Returned (CreateOrgResponse orgId) ∧
  final r = mkStore (<[orgId := org]> (orgs st)) (<[key := owner]> (orgMembers st)) (invites st) ∧
  writes r = [WSet Orgs orgId (orgData orgId (name data) (slug data) (uid a));
              WSet OrgMembers key (ownerData orgId (uid a) (default EmptyString (token_email a)))] ∧
  orgs (final r) !! orgId = Some org ∧
  org !! "id" = Some (VStr orgId) ∧
  org !! "ownerId" = Some (VStr (uid a)) ∧
  org !! "status" = Some (VStr "active") ∧
  orgMembers (final r) !! key = Some owner ∧
  owner !! "orgId" = Some (VStr orgId) ∧
  owner !! "uid" = Some (VStr (uid a)) ∧
  owner !! "role" = Some (VStr "owner") ∧
  owner !! "status" = Some (VStr "active").
Proof.
  intros Hn Hs orgId key r org owner. subst r. unfold createOrg.
  rewrite (falsy_false _ Hn), (falsy_false _ Hs). cbn.
  repeat split; try done; apply lookup_insert_eq.
Qed.

(** C6: when the invitation exists and its email is not the email of the
    caller's token, acceptInvite throws permission-denied and writes
    nothing: the store is the one it started from, so the invitation is
    still there and no membership was created. *)
Theorem acceptInvite_wrong_email (ev : nat → Env) (st : Store) (a : AuthData)
    (data : AcceptInviteData) (inv : Doc) :
  invites st !! inviteId data = Some inv →
  inv !! "email" ≠ VStr <$> token_email a →
  let r := exec ev st (acceptInvite (Some a) data) in
  outcome r = Threw (mkHttpsError permission_denied
                       "This invite was sent to a different email address.") ∧
  writes r = [] ∧
  final r = st ∧
  invites (final r) !! inviteId data = Some inv ∧
  orgMembers (final r) = orgMembers st.
Proof.
  intros Hinv Hne. cbn. rewrite (read_found Invites _ _ _ Hinv).
  apply strict_neq_true in Hne. by rewrite Hne.
Qed.



Lemma createInvite_authorized (ev : nat → Env) (st : Store) (a : AuthData)
    (data : CreateInviteData) :
  authorized st (ci_orgId data) (uid a) →
  invites st !! autoId (ev 1%nat) = None →
  exec ev st (createInvite (Some a) data) =
    mkResult
      (mkStore (orgs st) (orgMembers st)
         (<[autoId (ev 1%nat) :=
              inviteDoc (ci_orgId data) (ci_email data) (ci_role data) (uid a)
                        (now (ev 2%nat))]> (invites st)))
      [WCreate Invites (autoId (ev 1%nat)) (inviteData data (uid a))]
      (Returned (CreateInviteResponse (autoId (ev 1%nat)))).
Proof.
  intros (m & Hm & Hrole) Hfresh. cbn. rewrite (read_found OrgMembers _ _ _ Hm).
  apply includes_owner_admin_true in Hrole. rewrite Hrole. cbn.
  by rewrite Hfresh.
Qed.


(** A successful acceptInvite, spelled out: the invitation existed, its
    orgId and role fields were defined, its email was the caller's, and the
    call wrote the membership and then deleted the invitation. *)
Lemma acceptInvite_returned (ev : nat → Env) (st : Store) (a : AuthData)
    (data : AcceptInviteData) (r : Response) :
  outcome (exec ev st (acceptInvite (Some a) data)) = Returned r →
  ∃ inv o e rl,
    invites st !! inviteId data = Some inv ∧
    inv !! "orgId" = Some o ∧ inv !! "role" = Some rl ∧
    inv !! "email" = Some (VStr e) ∧ token_email a = Some e ∧
    exec ev st (acceptInvite (Some a) data) =
      mkResult
        (mkStore (orgs st)
           (<[memberDocId (template (Some o)) (uid a) :=
                memberDoc o (uid a) e rl (now (ev 1%nat))]> (orgMembers st))
           (delete (inviteId data) (invites st)))
        [WSet OrgMembers (memberDocId (template (Some o)) (uid a))
           (memberData inv (uid a) (Some e));
         WDelete Invites (inviteId data)]
        (Returned (AcceptInviteResponse (Some o))).
Proof.
  cbn. case_read inv Hinv; [|by destruct (doc_ok _)].
  destruct (strict_neq _ _) eqn:Heq; [done|].
  apply strict_neq_false in Heq. cbn.
  destruct (inv !! "orgId") as [o|] eqn:Ho; [|done].
  destruct (token_email a) as [e|] eqn:He; [|done].
  destruct (inv !! "role") as [rl|] eqn:Hrl; [|done].
  cbn. intros _. by exists inv, o, e, rl.
Qed.

(** C10: when the caller already holds a membership at the key the
    invitation's organisation and their uid make, a successful acceptInvite
    leaves at that key a document that is a function of the invitation,
    the caller and the commit time alone: orgId, uid, email, role (the
    invitation's), status pending_onboarding and joinedAt, and no other
    field.  Nothing of the earlier document survives. *)
Theorem acceptInvite_replaces_membership (ev : nat → Env) (st : Store) (a : AuthData)
    (data : AcceptInviteData) (inv old : Doc) (r : Response) :
  invites st !! inviteId data = Some inv →
  orgMembers st !! memberDocId (template (inv !! "orgId")) (uid a) = Some old →
  outcome (exec ev st (acceptInvite (Some a) data)) = Returned r →
  ∃ o e rl fresh,
    inv !! "orgId" = Some o ∧ inv !! "role" = Some rl ∧ token_email a = Some e ∧
    fresh = memberDoc o (uid a) e rl (now (ev 1%nat)) ∧
    orgMembers (final (exec ev st (acceptInvite (Some a) data)))
      !! memberDocId (template (inv !! "orgId")) (uid a) = Some fresh ∧
    fresh !! "role" = inv !! "role" ∧
    fresh !! "status" = Some (VStr "pending_onboarding") ∧
    dom fresh = {[ "orgId"; "uid"; "email"; "role"; "status"; "joinedAt" ]}.
Proof.
  intros Hinv _ Hret.
  destruct (acceptInvite_returned _ _ _ _ _ Hret)
    as (inv' & o & e & rl & Hinv' & Ho & Hrl & _ & He & ->).
  assert (inv' = inv) as -> by congruence.
  exists o, e, rl, (memberDoc o (uid a) e rl (now (ev 1%nat))).
  rewrite Ho, Hrl. cbn [final orgMembers].
  rewrite lookup_insert_eq. repeat split; done.
Qed.

(** C1 (amended): calls that do not overlap consume an invitation once.  A
    successful acceptInvite has created the membership with the
    invitation's role and status pending_onboarding and has deleted the
    invitation, and an acceptInvite for the same inviteId that starts
    after it, by any caller, fails and writes nothing: with not-found, the
    inviteId being a document id (internal if a store held an invitation
    at an id doc() refuses). *)
Theorem acceptInvite_consumed_after_success (ev : nat → Env) (st : Store) (a : AuthData)
    (data : AcceptInviteData) (r : Response) :
  outcome (exec ev st (acceptInvite (Some a) data)) = Returned r →
  let st' := final (exec ev st (acceptInvite (Some a) data)) in
  (∃ inv m, invites st !! inviteId data = Some inv ∧
            orgMembers st' !! memberDocId (template (inv !! "orgId")) (uid a) = Some m ∧
            m !! "role" = inv !! "role" ∧
            m !! "status" = Some (VStr "pending_onboarding")) ∧
  invites st' !! inviteId data = None ∧
  ∀ ev' a', exec ev' st' (acceptInvite (Some a') data) =
    mkResult st' []
      (Threw (if doc_ok (inviteId data)
              then mkHttpsError not_found "Invitation not found or expired."
              else internalError)).
Proof.
  intros Hret st'. subst st'.
  destruct (acceptInvite_returned _ _ _ _ _ Hret)
    as (inv & o & e & rl & Hinv & Ho & Hrl & _ & He & ->).
  cbn [final orgMembers invites]. split; [|split].
  - exists inv, (memberDoc o (uid a) e rl (now (ev 1%nat))). rewrite Ho, Hrl.
    split; [done|]. split; [apply lookup_insert_eq|]. done.
  - apply lookup_delete_eq.
  - intros ev' a'. cbn.
    rewrite (read_missing Invites _ _ (lookup_delete_eq (invites st) (inviteId data))).
    by destruct (doc_ok _).
Qed.

Lemma approveMember_authorized (ev : nat → Env) (st : Store) (a : AuthData)
    (data : ApproveMemberData) (d : Doc) :
  authorized st (am_orgId data) (uid a) →
  orgMembers st !! memberDocId (am_orgId data) (memberId data) = Some d →
  exec ev st (approveMember (Some a) data) =
    mkResult
      (mkStore (orgs st)
         (<[memberDocId (am_orgId data) (memberId data) :=
              {[ "status" := VStr "active"; "approvedAt" := VTime (now (ev 1%nat));
                 "approvedBy" := VStr (uid a) ]} ∪ d]> (orgMembers st))
         (invites st))
      [WUpdate OrgMembers (memberDocId (am_orgId data) (memberId data)) (approvalData (uid a))]
      (Returned SuccessResponse).
Proof.
  intros (m & Hm & Hrole) Hd. cbn. rewrite (read_found OrgMembers _ _ _ Hm).
  apply includes_owner_admin_true in Hrole. rewrite Hrole. cbn.
  by rewrite Hd.
Qed.

(** C9 (amended): approveMember by an owner or admin on a membership that
    is already active succeeds and keeps status active and every field
    other than approvedAt and approvedBy as it was; approvedAt becomes the
    commit time and approvedBy the caller's uid. *)
Theorem approveMember_active (ev : nat → Env) (st : Store) (a : AuthData)
    (data : ApproveMemberData) (d : Doc) :
  authorized st (am_orgId data) (uid a) →
  orgMembers st !! memberDocId (am_orgId data) (memberId data) = Some d →
  d !! "status" = Some (VStr "active") →
  let r := exec ev st (approveMember (Some a) data) in
  outcome r = Returned SuccessResponse ∧
  ∃ d', orgMembers (final r) !! memberDocId (am_orgId data) (memberId data) = Some d' ∧
        d' !! "status" = Some (VStr "active") ∧
        d' !! "approvedAt" = Some (VTime (now (ev 1%nat))) ∧
        d' !! "approvedBy" = Some (VStr (uid a)) ∧
        ∀ f, f ≠ "approvedAt" → f ≠ "approvedBy" → d' !! f = d !! f.
Proof.
  intros Hauth Hd Hst r. subst r.
  rewrite (approveMember_authorized _ _ _ _ _ Hauth Hd). cbn [outcome final orgMembers].
  split; [done|]. eexists. split; [apply lookup_insert_eq|].
  split; [by apply lookup_union_Some_l|].
  split; [by apply lookup_union_Some_l|].
  split; [by apply lookup_union_Some_l|].
  intros f Hf1 Hf2. destruct (decide (f = "status")) as [->|Hf3].
  - rewrite Hst. by apply lookup_union_Some_l.
  - apply lookup_union_r. by rewrite !lookup_insert_ne, lookup_singleton_ne.
Qed.

(** ** Interleaved calls *)

Lemma admits_any (evs : list Event) : Forall (admits any_request) evs.
Proof. apply Forall_forall. by intros []. Qed.

Section Invariant.
Variable I : Store → Prop.
Variable S : Collection → option Doc → Prop.
Variable W : Write → Prop.
Variable P : Request → Prop.

Hypothesis read_ok : ∀ st c key, I st → S c (collection c st !! key).
Hypothesis write_kept : ∀ t w st st', I st → W w → commit t w st = Some st' → I st'.
Hypothesis handlers_keep : ∀ req, P req → keeps S W (handle req).

Lemma step_keeps (e : Env) (st st' : Store) (p p' : Prog) :
  I st → keeps S W p → step e st p = (st', p') → I st' ∧ keeps S W p'.
Proof.
  intros Hst Hp Hs. destruct Hp as [r|err|k Hk|c key k Hk|w k Hw Hk]; cbn in Hs.
  - injection Hs as <- <-. split; [done|constructor].
  - injection Hs as <- <-. split; [done|constructor].
  - injection Hs as <- <-. split; [done|apply Hk].
  - destruct (read c key st) as [snap|] eqn:Hr; injection Hs as <- <-.
    + split; [done|]. apply Hk. rewrite (read_Some _ _ _ _ Hr). by apply read_ok.
    + split; [done|constructor].
  - destruct (commit (now e) w st) as [st1|] eqn:Hc; injection Hs as <- <-.
    + split; [by eapply write_kept|done].
    + split; [done|constructor].
Qed.

Lemma sys_step_keeps (cfg : Config) (ev : Event) :
  admits P ev →
  I (store cfg) ∧ Forall (keeps S W) (calls cfg) →
  I (store (sys_step cfg ev)) ∧ Forall (keeps S W) (calls (sys_step cfg ev)).
Proof.
  intros Hev [Hst Hcalls]. destruct ev as [r|i e]; cbn.
  - split; [done|]. apply Forall_app. split; [done|]. constructor; [|constructor].
    by apply handlers_keep.
  - destruct (calls cfg !! i) as [p|] eqn:Hp; [|done].
    destruct (step e (store cfg) p) as [st' p'] eqn:Hs.
    destruct (step_keeps e _ _ _ _ Hst (Forall_lookup_1 _ _ _ _ Hcalls Hp) Hs) as [Hst' Hp'].
    split; [done|]. cbn. by apply Forall_insert.
Qed.

Lemma run_keeps (evs : list Event) (cfg : Config) :
  Forall (admits P) evs →
  I (store cfg) ∧ Forall (keeps S W) (calls cfg) →
  I (store (run evs cfg)) ∧ Forall (keeps S W) (calls (run evs cfg)).
Proof.
  intros Hevs. revert cfg.
  induction Hevs as [|ev evs Hev _ IH]; intros cfg Hcfg; [done|].
  cbn. by apply IH, sys_step_keeps.
Qed.
End Invariant.

(** *** Nothing but invitations is deleted *)

Lemma handle_no_delete (req : Request) : keeps any_snapshot no_delete (handle req).
Proof.
  destruct req as [[a|] d|[a|] d|[a|] d|[a|] d|[a|] d]; cbn; try constructor.
  - unfold createOrg. destruct (falsy _ || falsy _); repeat constructor.
  - intros [m|] _; [|constructor]. destruct (includes_owner_admin _); repeat constructor.
  - intros [inv|] _; [|constructor]. destruct (strict_neq _ _); repeat constructor.
  - intros [m|] _; repeat constructor.
  - intros [m|] _; [|constructor]. destruct (includes_owner_admin _); repeat constructor.
Qed.

Lemma commit_holds_docs (DO DM : gset string) (t : Z) (w : Write) (st st' : Store) :
  holds_docs DO DM st → no_delete w → commit t w st = Some st' → holds_docs DO DM st'.
Proof.
  intros [HO HM] Hw Hc. unfold holds_docs.
  destruct w as [c key data|c key data|c key data|c key]; cbn in Hc.
  - destruct (resolve t data); [|done]. injection Hc as <-.
    destruct c; cbn; rewrite ?dom_insert_L; split; set_solver.
  - destruct (resolve t data); [|done]. destruct (collection c st !! key); [done|].
    injection Hc as <-. destruct c; cbn; rewrite ?dom_insert_L; split; set_solver.
  - destruct (resolve t data); [|done]. destruct (collection c st !! key); [|done].
    injection Hc as <-. destruct c; cbn; rewrite ?dom_insert_L; split; set_solver.
  - injection Hc as <-. destruct c; cbn in *; done.
Qed.

Lemma reachable_no_delete (cfg : Config) :
  reachable cfg → Forall (keeps any_snapshot no_delete) (calls cfg).
Proof.
  intros [evs <-].
  apply (run_keeps (λ _, True) any_snapshot no_delete any_request);
    [done|done|intros req _; apply handle_no_delete|apply admits_any
    |split; [done|constructor]].
Qed.

Lemma run_holds_docs (cfg : Config) (evs : list Event) :
  reachable cfg →
  holds_docs (dom (orgs (store cfg))) (dom (orgMembers (store cfg))) (store (run evs cfg)).
Proof.
  intros Hreach.
  apply (run_keeps (holds_docs (dom (orgs (store cfg))) (dom (orgMembers (store cfg))))
           any_snapshot no_delete any_request).
  - done.
  - apply commit_holds_docs.
  - intros req _. apply handle_no_delete.
  - apply admits_any.
  - split; [done|]. by apply reachable_no_delete.
Qed.

(** *** Roles *)

Lemma is_invite_role_is_role (v : option Value) : is_invite_role v → is_role v.
Proof. unfold is_invite_role, is_role. tauto. Qed.

Lemma roles_closed_set_member (st : Store) (key : string) (m : Doc) :
  roles_closed st → is_role (m !! "role") →
  roles_closed (mkStore (orgs st) (<[key := m]> (orgMembers st)) (invites st)).
Proof.
  intros [HM HI] Hm. split; [|done]. cbn.
  intros k m' [[_ <-]|[_ Hk]]%lookup_insert_Some; [done|by eapply HM].
Qed.

Lemma handle_roles (req : Request) :
  declared req → keeps role_snapshot role_write (handle req).
Proof.
  destruct req as [[a|] d|[a|] d|[a|] d|[a|] d|[a|] d]; cbn; intros Hdecl;
    try constructor.
  - unfold createOrg. destruct (falsy _ || falsy _); [constructor|].
    constructor. intros orgId. constructor; [|constructor; [|constructor]].
    + intros t st st' [HM HI] [= <-]. done.
    + intros t st st' Hst [= <-]. apply roles_closed_set_member; [done|]. by left.
  - intros [m|] _; [|constructor]. destruct (includes_owner_admin _); [|constructor].
    constructor. intros id. constructor; [|constructor].
    intros t st st' [HM HI] Hc. cbn in Hc. destruct (invites st !! id); [done|].
    injection Hc as <-. split; [done|]. cbn.
    intros k i [[_ <-]|[_ Hk]]%lookup_insert_Some; [|by eapply HI].
    destruct Hdecl as [Hr|Hr]; unfold is_invite_role; [left|right];
      by rewrite <- Hr.
  - intros [inv|] Hinv; [|constructor]. destruct (strict_neq _ _); [constructor|].
    cbn in Hinv. constructor; [|constructor; [|constructor]].
    + intros t st st' Hst Hc. cbn in Hc.
      destruct (inv !! "orgId") as [o|]; [|done].
      destruct (token_email a) as [e|]; [|done].
      destruct (inv !! "role") as [rl|] eqn:Hrl; [|done].
      cbn in Hc. injection Hc as <-. apply roles_closed_set_member; [done|].
      change (is_role (memberDoc o (uid a) e rl t !! "role")).
      assert (memberDoc o (uid a) e rl t !! "role" = Some rl) as -> by done.
      by apply is_invite_role_is_role.
    + intros t st st' [HM HI] [= <-]. split; [done|]. cbn.
      intros k i [_ Hk]%lookup_delete_Some. by eapply HI.
  - intros [m|] _; [|constructor]. constructor; [|constructor].
    intros t st st' [HM HI] Hc. cbn in Hc.
    destruct (orgMembers st !! _) as [old|] eqn:Hold; [|done]. injection Hc as <-.
    apply roles_closed_set_member; [done|].
    rewrite lookup_union_r by done. by eapply HM.
  - intros [m|] _; [|constructor]. destruct (includes_owner_admin _); [|constructor].
    constructor; [|constructor].
    intros t st st' [HM HI] Hc. cbn in Hc.
    destruct (orgMembers st !! _) as [old|] eqn:Hold; [|done]. injection Hc as <-.
    apply roles_closed_set_member; [done|].
    rewrite lookup_union_r by done. by eapply HM.
Qed.

Lemma reachable_declared_roles (cfg : Config) :
  reachable_declared cfg → roles_closed (store cfg).
Proof.
  intros (evs & Hevs & <-).
  apply (run_keeps roles_closed role_snapshot role_write declared); [| | |done|].
  - intros st c key [_ HI]. destruct c; cbn; try done.
    destruct (invites st !! key) as [i|] eqn:Hi; [|done]. by eapply HI.
  - intros t w st st' Hst Hw. by apply Hw.
  - apply handle_roles.
  - split; [|constructor].
    split; intros k d Hk; cbn in Hk; by rewrite lookup_empty in Hk.
Qed.

(** C3 (amended): createInvite stores the role of the request as it is
    given, unchecked, and acceptInvite copies it.  In every state reached
    by requests whose createInvite role is of the declared type, admin or
    staff, whatever the interleaving and with unfinished calls included,
    every stored membership has a role among owner, admin and staff, and
    every stored invitation a role among admin and staff. *)
Theorem stored_roles_closed (cfg : Config) :
  reachable_declared cfg →
  (∀ key m, orgMembers (store cfg) !! key = Some m → is_role (m !! "role")) ∧
  (∀ key i, invites (store cfg) !! key = Some i →
            is_invite_role (i !! "role") ∧ is_role (i !! "role")).
Proof.
  intros [HM HI]%reachable_declared_roles. split; [done|].
  intros key i Hi. split; [by eapply HI|]. apply is_invite_role_is_role. by eapply HI.
Qed.

(** *** The Organization is written first *)

Lemma founder_write_mono (O O' : gset string) (w : Write) :
  O ⊆ O' → founder_write O w → founder_write O' w.
Proof.
  intros Hsub Hw t st st' HO. apply Hw. by etrans.
Qed.

Lemma org_first_mono (O O' : gset string) (p : Prog) :
  O ⊆ O' → org_first O p → org_first O' p.
Proof.
  intros Hsub Hok. revert O' Hsub.
  induction Hok as [O r Hr|O e|O k _ IH|O c key k _ IH|O w k Hdel Hw Hf _ IH];
    intros O' Hsub.
  - constructor. intros o Ho. by apply Hsub, Hr.
  - constructor.
  - constructor. intros id. by apply IH.
  - constructor. intros snap. by apply IH.
  - constructor; [done| |by eapply founder_write_mono|].
    + intros key o u email Heq. by eapply Hsub, Hw.
    + apply IH. by apply union_mono_r.
Qed.

Lemma founders_set_org (st : Store) (key : string) (d : Doc) :
  founders_have_org st →
  founders_have_org (mkStore (<[key := d]> (orgs st)) (orgMembers st) (invites st)).
Proof.
  intros Hst k m Hm Hf. destruct (Hst k m Hm Hf) as (o & Ho & Hin).
  exists o. split; [done|]. cbn. rewrite lookup_insert_is_Some. 
  destruct (decide (key = o)); [by left|by right].
Qed.

Lemma founders_set_member (st : Store) (key : string) (m : Doc) :
  founders_have_org st →
  (founder_doc m → ∃ o, m !! "orgId" = Some (VStr o) ∧ is_Some (orgs st !! o)) →
  founders_have_org (mkStore (orgs st) (<[key := m]> (orgMembers st)) (invites st)).
Proof.
  intros Hst Hnew k m' Hk Hf. cbn in Hk.
  apply lookup_insert_Some in Hk as [[_ <-]|[_ Hk]]; [by apply Hnew|].
  by eapply Hst.
Qed.

Lemma onboarded_not_founder (data : OnboardingData) (t : Z) (old : Doc) :
  ¬ founder_doc (onboardingDoc data t ∪ old).
Proof.
  intros (_ & Hon & _).
  by rewrite (lookup_union_Some_l _ old "onboardedAt" (VTime t)) in Hon.
Qed.

Lemma approved_not_founder (u : string) (t : Z) (old : Doc) :
  ¬ founder_doc (approvalDoc u t ∪ old).
Proof.
  intros (_ & _ & Hby).
  by rewrite (lookup_union_Some_l _ old "approvedBy" (VStr u)) in Hby.
Qed.

Lemma handle_org_first (O : gset string) (req : Request) : org_first O (handle req).
Proof.
  destruct req as [[a|] d|[a|] d|[a|] d|[a|] d|[a|] d]; cbn; try constructor.
  - unfold createOrg. destruct (falsy _ || falsy _); [constructor|].
    constructor. intros orgId. constructor; [done|done| |].
    { intros t st st' _ Hst [= <-]. by apply founders_set_org. }
    cbn. constructor; [done| | |].
    + intros key o u email [= _ -> _ _]. apply elem_of_union_r, elem_of_singleton_2. done.
    + intros t st st' HO Hst [= <-]. apply founders_set_member; [done|].
      intros _. exists orgId. split; [done|]. apply elem_of_dom, HO.
      apply elem_of_union_r, elem_of_singleton_2. done.
    + constructor. intros o [= <-]. cbn.
      apply elem_of_union_l, elem_of_union_r, elem_of_singleton_2. done.
  - intros [m|]; [|constructor]. destruct (includes_owner_admin _); [|constructor].
    constructor. intros id. constructor; [done|done| |by constructor].
    intros t st st' _ Hst Hc. cbn in Hc. destruct (invites st !! id); [done|].
    by injection Hc as <-.
  - intros [inv|]; [|constructor]. destruct (strict_neq _ _); [constructor|].
    constructor; [done| | |].
    + intros key o u email Heq. by injection Heq.
    + intros t st st' _ Hst Hc. cbn in Hc.
      destruct (inv !! "orgId") as [o|]; [|done].
      destruct (token_email a) as [e|]; [|done].
      destruct (inv !! "role") as [rl|]; [|done].
      cbn in Hc. injection Hc as <-. apply founders_set_member; [done|].
      intros [Hactive _].
      change (memberDoc o (uid a) e rl t !! "status" = Some (VStr "active")) in Hactive.
      by assert (memberDoc o (uid a) e rl t !! "status" = Some (VStr "pending_onboarding"))
        as Hpending by done; rewrite Hpending in Hactive.
    + constructor; [done|done| |by constructor].
      by intros t st st' _ Hst [= <-].
  - intros [m|]; [|constructor]. constructor; [done|done| |by constructor].
    intros t st st' _ Hst Hc. cbn in Hc.
    destruct (orgMembers st !! _) as [old|]; [|done]. injection Hc as <-.
    apply founders_set_member; [done|].
    intros Hf. by apply (onboarded_not_founder d t old) in Hf.
  - intros [m|]; [|constructor]. destruct (includes_owner_admin _); [|constructor].
    constructor; [done|done| |by constructor].
    intros t st st' _ Hst Hc. cbn in Hc.
    destruct (orgMembers st !! _) as [old|]; [|done]. injection Hc as <-.
    apply founders_set_member; [done|].
    intros Hf. by apply (approved_not_founder (uid a) t old) in Hf.
Qed.

Lemma commit_orgs_grow (t : Z) (w : Write) (st st' : Store) :
  no_delete w → commit t w st = Some st' →
  dom (orgs st) ∪ orgs_written w ⊆ dom (orgs st').
Proof.
  intros Hw Hc. destruct w as [c key data|c key data|c key data|c key]; cbn in Hc.
  - destruct (resolve t data); [|done]. injection Hc as <-.
    destruct c; cbn; rewrite ?dom_insert_L, ?(right_id_L ∅ (∪));
      first [done|by rewrite (comm_L (∪))].
  - destruct (resolve t data); [|done]. destruct (collection c st !! key); [done|].
    injection Hc as <-.
    destruct c; cbn; rewrite ?dom_insert_L, ?(right_id_L ∅ (∪));
      first [done|by rewrite (comm_L (∪))].
  - destruct (resolve t data); [|done]. destruct (collection c st !! key); [|done].
    injection Hc as <-.
    destruct c; cbn; rewrite ?dom_insert_L, ?(right_id_L ∅ (∪));
      first [done|apply union_subseteq_r].
  - injection Hc as <-. destruct c; cbn in *; rewrite ?(right_id_L ∅ (∪)); done.
Qed.

Lemma step_org_first (e : Env) (st st' : Store) (p p' : Prog) :
  org_first (dom (orgs st)) p → founders_have_org st → step e st p = (st', p') →
  dom (orgs st) ⊆ dom (orgs st') ∧ org_first (dom (orgs st')) p' ∧ founders_have_org st'.
Proof.
  intros Hp Hst Hs.
  destruct Hp as [r Hr|err|k Hk|c key k Hk|w k Hdel Hw Hf Hk]; cbn in Hs.
  - injection Hs as <- <-. split; [done|]. split; [by constructor|done].
  - injection Hs as <- <-. split; [done|]. split; [constructor|done].
  - injection Hs as <- <-. split; [done|]. split; [apply Hk|done].
  - destruct (read c key st); injection Hs as <- <-; (split; [done|]);
      (split; [|done]); [apply Hk|constructor].
  - destruct (commit (now e) w st) as [st1|] eqn:Hc; injection Hs as <- <-.
    + pose proof (commit_orgs_grow _ _ _ _ Hdel Hc) as Hdom. split; [|split].
      * etrans; [apply union_subseteq_l|apply Hdom].
      * by eapply org_first_mono.
      * by eapply Hf.
    + split; [done|]. split; [constructor|done].
Qed.

Lemma run_org_first (evs : list Event) (cfg : Config) :
  Forall (org_first (dom (orgs (store cfg)))) (calls cfg) →
  founders_have_org (store cfg) →
  Forall (org_first (dom (orgs (store (run evs cfg))))) (calls (run evs cfg)) ∧
  founders_have_org (store (run evs cfg)).
Proof.
  revert cfg. induction evs as [|ev evs IH]; intros cfg Hcalls Hst; [done|].
  cbn. destruct ev as [r|i e]; cbn.
  - apply IH; [|done]. cbn.
    apply Forall_app. split; [done|]. constructor; [apply handle_org_first|constructor].
  - destruct (calls cfg !! i) as [p|] eqn:Hp; [|by apply IH].
    destruct (step e (store cfg) p) as [st' p'] eqn:Hs.
    destruct (step_org_first e _ _ _ _ (Forall_lookup_1 _ _ _ _ Hcalls Hp) Hst Hs)
      as (Hdom & Hp' & Hst').
    apply IH; [|done]. cbn. apply Forall_insert; [|done].
    eapply Forall_impl; [apply Hcalls|]. intros q Hq. by eapply org_first_mono.
Qed.

Lemma initial_founders : founders_have_org (store initial).
Proof. intros key m Hm. cbn in Hm. by rewrite lookup_empty in Hm. Qed.

(** C2 (amended): createOrg commits the Organization and then, as a second
    store operation, the owner Membership.  In every reachable state,
    intermediate ones and abandoned calls included: every stored Membership
    that is as createOrg writes it (active, neither onboarded nor approved
    since) names an orgId whose Organization is in the store; a createOrg
    call that is about to write its owner Membership, or has returned, has
    its Organization in the store; and an Organization of the store stays
    there in every later state.  So the owner Membership createOrg writes
    is never in the store without its Organization. *)
Theorem owner_membership_after_org (cfg : Config) :
  reachable cfg →
  (∀ key m, orgMembers (store cfg) !! key = Some m → founder_doc m →
     ∃ o, m !! "orgId" = Some (VStr o) ∧ is_Some (orgs (store cfg) !! o)) ∧
  (∀ i p o, calls cfg !! i = Some p → owner_write_due o p →
     is_Some (orgs (store cfg) !! o)) ∧
  (∀ evs o, is_Some (orgs (store cfg) !! o) → is_Some (orgs (store (run evs cfg)) !! o)).
Proof.
  intros Hreach. split; [|split].
  - destruct Hreach as [evs0 <-].
    exact (proj2 (run_org_first evs0 initial (Forall_nil_2 _) initial_founders)).
  - intros i p o Hp Hdue. apply elem_of_dom. destruct Hreach as [evs0 <-].
    pose proof (proj1 (run_org_first evs0 initial (Forall_nil_2 _) initial_founders))
      as Hcalls.
    pose proof (Forall_lookup_1 _ _ _ _ Hcalls Hp) as Hfirst.
    destruct Hdue as [(u & email & ->)| ->]; inversion Hfirst; subst; eauto.
  - intros evs o Ho%elem_of_dom. apply elem_of_dom.
    by apply (run_holds_docs cfg evs Hreach).
Qed.

(** ** Counterexamples *)

(** C1 fails on the code.  [U2] sends acceptInvite for [I1] twice and both
    calls read the invitation before either writes.  After the first
    call's membership write the invitation is still present next to the
    membership made from it, and in the end both calls have returned
    success: neither was refused with not-found. *)
Lemma acceptInvite_overlapping_both_succeed :
  invites (store (run Scenario.first_wrote initial)) !! "I1" =
    Some (inviteDoc "O1" "b@x.com" "staff" "U1" 105) ∧
  orgMembers (store (run Scenario.first_wrote initial)) !! "O1_U2" =
    Some (memberDoc (VStr "O1") "U2" "b@x.com" (VStr "staff") 108) ∧
  calls (run Scenario.both_done initial) !! 2%nat =
    Some (Return (AcceptInviteResponse (Some (VStr "O1")))) ∧
  calls (run Scenario.both_done initial) !! 3%nat =
    Some (Return (AcceptInviteResponse (Some (VStr "O1")))).
Proof. split; [|split; [|split]]; reflexivity. Qed.

(** C2 fails on the code.  After the first write of createOrg the store
    holds the Organization and no Membership at all. *)
Lemma createOrg_org_without_owner :
  reachable (run Scenario.half_created initial) ∧
  orgs (store (run Scenario.half_created initial)) !! "O1" =
    Some (orgDoc "O1" "Acme" "acme" "U1" 101) ∧
  orgMembers (store (run Scenario.half_created initial)) = ∅.
Proof. split; [by exists Scenario.half_created|]. split; reflexivity. Qed.

(** C3 fails on the code.  [U1], owner of [O1], sends createInvite with
    role superuser: the invitation is stored with that role, and after
    [U2] accepts it so is the membership of [U2]. *)
Lemma createInvite_stores_undeclared_role :
  reachable (run Cases.superuser_invited initial) ∧
  invites (store (run Cases.superuser_invited initial)) !! "I1" =
    Some (inviteDoc "O1" "b@x.com" "superuser" "U1" 105) ∧
  ¬ is_role (inviteDoc "O1" "b@x.com" "superuser" "U1" 105 !! "role") ∧
  reachable (run Cases.superuser_accepted initial) ∧
  orgMembers (store (run Cases.superuser_accepted initial)) !! "O1_U2" =
    Some (memberDoc (VStr "O1") "U2" "b@x.com" (VStr "superuser") 107) ∧
  ¬ is_role (memberDoc (VStr "O1") "U2" "b@x.com" (VStr "superuser") 107 !! "role").
Proof.
  assert (inviteDoc "O1" "b@x.com" "superuser" "U1" 105 !! "role" =
          Some (VStr "superuser")) as -> by reflexivity.
  assert (memberDoc (VStr "O1") "U2" "b@x.com" (VStr "superuser") 107 !! "role" =
          Some (VStr "superuser")) as -> by reflexivity.
  split; [by exists Cases.superuser_invited|]. split; [reflexivity|].
  split; [intros [H|[H|H]]; discriminate|].
  split; [by exists Cases.superuser_accepted|]. split; [reflexivity|].
  intros [H|[H|H]]; discriminate.
Qed.



(** C9 fails on the code.  [U2] is active after onboarding; the owner's
    approveMember then adds approvedAt and approvedBy to the document. *)
Lemma approveMember_active_changes_document :
  authorized Scenario.onboarded "O1" "U1" ∧
  (∃ d, orgMembers Scenario.onboarded !! "O1_U2" = Some d ∧
        d !! "status" = Some (VStr "active") ∧ d !! "approvedBy" = None) ∧
  (∃ d', orgMembers (final (exec (Scenario.clock "none") Scenario.onboarded
                              (approveMember (Some Scenario.U1) Scenario.approve_U2)))
           !! "O1_U2" = Some d' ∧
         d' !! "approvedBy" = Some (VStr "U1")) ∧
  orgMembers (final (exec (Scenario.clock "none") Scenario.onboarded
                       (approveMember (Some Scenario.U1) Scenario.approve_U2))) !! "O1_U2"
    ≠ orgMembers Scenario.onboarded !! "O1_U2".
Proof.
  split; [|split; [|split]].
  - exists (ownerDoc "O1" "U1" "a@x.com" 102). split; [reflexivity|by left].
  - exists Scenario.bob_doc. split; [reflexivity|]. split; reflexivity.
  - eexists. split; reflexivity.
  - intros Heq. apply (f_equal (λ od : option Doc, od ≫= (.!! "approvedBy"))) in Heq.
    change (Some (VStr "U1") = None) in Heq. discriminate.
Qed.

(** ** The theorems at the concrete history *)

Lemma founded_U1_authorized : authorized Scenario.founded "O1" "U1".
Proof. exists (ownerDoc "O1" "U1" "a@x.com" 102). split; [reflexivity|by left]. Defined.

Lemma onboarded_U1_authorized : authorized Scenario.onboarded "O1" "U1".
Proof. exists (ownerDoc "O1" "U1" "a@x.com" 102). split; [reflexivity|by left]. Defined.

Lemma createOrg_creates_org_and_owner_witness :
  name Scenario.acme ≠ EmptyString ∧ slug Scenario.acme ≠ EmptyString ∧
  outcome (exec (Scenario.clock "O1") emptyStore (createOrg (Some Scenario.U1) Scenario.acme))
    = Returned (CreateOrgResponse "O1").
Proof.
  assert (name Scenario.acme ≠ EmptyString) as Hn by discriminate.
  assert (slug Scenario.acme ≠ EmptyString) as Hs by discriminate.
  split; [exact Hn|]. split; [exact Hs|].
  exact (proj1 (createOrg_creates_org_and_owner (Scenario.clock "O1") emptyStore
                  Scenario.U1 Scenario.acme Hn Hs)).
Defined.

Lemma acceptInvite_wrong_email_witness :
  let r := exec (Scenario.clock "none") Scenario.invited
             (acceptInvite (Some Scenario.U1) Scenario.accept_I1) in
  outcome r = Threw (mkHttpsError permission_denied
                       "This invite was sent to a different email address.") ∧
  writes r = [] ∧
  final r = Scenario.invited ∧
  invites (final r) !! "I1" = Some (inviteDoc "O1" "b@x.com" "staff" "U1" 102) ∧
  orgMembers (final r) = orgMembers Scenario.invited.
Proof.
  apply (acceptInvite_wrong_email (Scenario.clock "none") Scenario.invited Scenario.U1
           Scenario.accept_I1 (inviteDoc "O1" "b@x.com" "staff" "U1" 102)).
  - reflexivity.
  - change (Some (VStr "b@x.com") ≠ Some (VStr "a@x.com")). discriminate.
Defined.




Lemma acceptInvite_replaces_membership_witness :
  ∃ o e rl fresh,
    inviteDoc "O1" "a@x.com" "staff" "U1" 102 !! "orgId" = Some o ∧
    inviteDoc "O1" "a@x.com" "staff" "U1" 102 !! "role" = Some rl ∧
    token_email Scenario.U1 = Some e ∧
    fresh = memberDoc o "U1" e rl 101 ∧
    orgMembers (final (exec (Scenario.clock "none") Scenario.self_invited
                         (acceptInvite (Some Scenario.U1) Scenario.accept_I1)))
      !! "O1_U1" = Some fresh ∧
    fresh !! "role" = inviteDoc "O1" "a@x.com" "staff" "U1" 102 !! "role" ∧
    fresh !! "status" = Some (VStr "pending_onboarding") ∧
    dom fresh = {[ "orgId"; "uid"; "email"; "role"; "status"; "joinedAt" ]}.
Proof.
  apply (acceptInvite_replaces_membership (Scenario.clock "none") Scenario.self_invited
           Scenario.U1 Scenario.accept_I1 (inviteDoc "O1" "a@x.com" "staff" "U1" 102)
           (ownerDoc "O1" "U1" "a@x.com" 102) (AcceptInviteResponse (Some (VStr "O1"))));
    reflexivity.
Defined.

(** The example of C10 by evaluation: the owner of [O1] accepts a staff
    invitation to [O1] and is left a staff member pending onboarding. *)
Example owner_demoted_by_own_invite :
  orgMembers Scenario.self_invited !! "O1_U1" = Some (ownerDoc "O1" "U1" "a@x.com" 102) ∧
  orgMembers (final (exec (Scenario.clock "none") Scenario.self_invited
                       (acceptInvite (Some Scenario.U1) Scenario.accept_I1))) !! "O1_U1"
    = Some (memberDoc (VStr "O1") "U1" "a@x.com" (VStr "staff") 101).
Proof. split; reflexivity. Qed.

Lemma acceptInvite_consumed_after_success_witness :
  let st' := final (exec (Scenario.clock "none") Scenario.invited
                      (acceptInvite (Some Scenario.U2) Scenario.accept_I1)) in
  (∃ inv m, invites Scenario.invited !! "I1" = Some inv ∧
            orgMembers st' !! memberDocId (template (inv !! "orgId")) "U2" = Some m ∧
            m !! "role" = inv !! "role" ∧
            m !! "status" = Some (VStr "pending_onboarding")) ∧
  invites st' !! "I1" = None ∧
  ∀ ev' a', exec ev' st' (acceptInvite (Some a') Scenario.accept_I1) =
    mkResult st' [] (Threw (mkHttpsError not_found "Invitation not found or expired.")).
Proof.
  apply (acceptInvite_consumed_after_success (Scenario.clock "none") Scenario.invited
           Scenario.U2 Scenario.accept_I1 (AcceptInviteResponse (Some (VStr "O1")))).
  reflexivity.
Defined.

Lemma approveMember_active_witness :
  let r := exec (Scenario.clock "none") Scenario.onboarded
             (approveMember (Some Scenario.U1) Scenario.approve_U2) in
  outcome r = Returned SuccessResponse ∧
  ∃ d', orgMembers (final r) !! "O1_U2" = Some d' ∧
        d' !! "status" = Some (VStr "active") ∧
        d' !! "approvedAt" = Some (VTime 101) ∧
        d' !! "approvedBy" = Some (VStr "U1") ∧
        ∀ f, f ≠ "approvedAt" → f ≠ "approvedBy" → d' !! f = Scenario.bob_doc !! f.
Proof.
  apply (approveMember_active (Scenario.clock "none") Scenario.onboarded Scenario.U1
           Scenario.approve_U2 Scenario.bob_doc).
  - exact onboarded_U1_authorized.
  - reflexivity.
  - reflexivity.
Defined.

Lemma both_done_declared : reachable_declared (run Scenario.both_done initial).
Proof.
  exists Scenario.both_done. split; [|reflexivity].
  unfold Scenario.both_done, Scenario.first_wrote, Scenario.both_read, Scenario.setup.
  cbn [app]. repeat (apply Forall_cons_2; [cbn; try done; by right|]). apply Forall_nil_2.
Defined.

Lemma stored_roles_closed_witness :
  reachable_declared (run Scenario.both_done initial) ∧
  is_role (ownerDoc "O1" "U1" "a@x.com" 102 !! "role") ∧
  is_role (memberDoc (VStr "O1") "U2" "b@x.com" (VStr "staff") 109 !! "role").
Proof.
  split; [exact both_done_declared|]. split.
  - apply (proj1 (stored_roles_closed _ both_done_declared) "O1_U1"). reflexivity.
  - apply (proj1 (stored_roles_closed _ both_done_declared) "O1_U2"). reflexivity.
Defined.

Lemma half_created_reachable : reachable (run Scenario.half_created initial).
Proof. exists Scenario.half_created. reflexivity. Defined.

Lemma setup_reachable : reachable (run Scenario.setup initial).
Proof. exists Scenario.setup. reflexivity. Defined.

Lemma owner_membership_after_org_witness :
  (* the owner Membership of U1, once written *)
  (reachable (run Scenario.setup initial) ∧
   orgMembers (store (run Scenario.setup initial)) !! "O1_U1" =
     Some (ownerDoc "O1" "U1" "a@x.com" 102) ∧
   ∃ o, ownerDoc "O1" "U1" "a@x.com" 102 !! "orgId" = Some (VStr o) ∧
        is_Some (orgs (store (run Scenario.setup initial)) !! o)) ∧
  (* createOrg between its two writes *)
  (reachable (run Scenario.half_created initial) ∧
   calls (run Scenario.half_created initial) !! 0%nat =
     Some (Do (WSet OrgMembers "O1_U1" (ownerData "O1" "U1" "a@x.com"))
              (Return (CreateOrgResponse "O1"))) ∧
   is_Some (orgs (store (run Scenario.half_created initial)) !! "O1") ∧
   is_Some (orgs (store (run Scenario.both_done (run Scenario.half_created initial)))
              !! "O1")).
Proof.
  split.
  - split; [exact setup_reachable|]. split; [reflexivity|].
    apply (proj1 (owner_membership_after_org _ setup_reachable) "O1_U1").
    + reflexivity.
    + split; [reflexivity|]. split; reflexivity.
  - destruct (owner_membership_after_org _ half_created_reachable) as (_ & Hdue & Hstay).
    assert (is_Some (orgs (store (run Scenario.half_created initial)) !! "O1")) as Horg.
    { apply (Hdue 0%nat _ "O1" eq_refl). left. by exists "U1", "a@x.com". }
    split; [exact half_created_reachable|]. split; [reflexivity|].
    split; [exact Horg|]. exact (Hstay Scenario.both_done "O1" Horg).
Defined.

(** * Further properties of the handlers *)

(** ** Refusals *)

(** X1: a request without [request.auth] is refused with unauthenticated
    by each of the five functions before the store is read or written,
    and before any argument is looked at. *)
Theorem unauthenticated_refused (req : Request) :
  request_auth req = None →
  ∃ msg, handle req = Throw (mkHttpsError unauthenticated msg) ∧
         ∀ ev st, exec ev st (handle req) = refused st (mkHttpsError unauthenticated msg).
Proof.
  destruct req as [auth d|auth d|auth d|auth d|auth d]; cbn; intros ->; eauto.
Qed.

(** X2: for an authenticated caller, createOrg is refused with
    invalid-argument, nothing generated and nothing written, exactly when
    the name or the slug is the empty string. *)
Theorem createOrg_invalid_argument_iff (ev : nat → Env) (st : Store) (a : AuthData)
    (data : CreateOrgData) :
  exec ev st (createOrg (Some a) data) =
    refused st (mkHttpsError invalid_argument "Organization name and slug are required.")
  ↔ name data = EmptyString ∨ slug data = EmptyString.
Proof.
  unfold createOrg, falsy. split.
  - intros Hex.
    destruct (decide (name data = EmptyString)) as [|Hn]; [by left|].
    destruct (decide (slug data = EmptyString)) as [|Hs]; [by right|].
    by rewrite !bool_decide_eq_false_2 in Hex.
  - intros Hempty.
    assert (bool_decide (name data = EmptyString) || bool_decide (slug data = EmptyString)
            = true) as ->; [|done].
    apply orb_true_iff. by rewrite !bool_decide_eq_true.
Qed.





(** X6: a call run alone that ends in an error, of any of the five
    functions and for any reason, has written nothing: the store is the
    one it started from. *)
Theorem failed_call_writes_nothing (ev : nat → Env) (st : Store) (req : Request)
    (e : HttpsError) :
  outcome (exec ev st (handle req)) = Threw e →
  final (exec ev st (handle req)) = st ∧ writes (exec ev st (handle req)) = [].
Proof.
  destruct req as [[a|] d|[a|] d|[a|] d|[a|] d|[a|] d]; cbn; try done.
  - destruct (falsy (name d) || falsy (slug d)); cbn; done.
  - case_read m Hm; [|by destruct (doc_ok _)].
    destruct (includes_owner_admin _); [|done]. cbn.
    destruct (invites st !! _); cbn; done.
  - case_read inv Hinv; [|by destruct (doc_ok _)].
    destruct (strict_neq _ _); [done|]. cbn.
    destruct (inv !! "orgId"); [|done]. destruct (token_email a); [|done].
    destruct (inv !! "role"); cbn; done.
  - case_read m Hm; [|by destruct (doc_ok _)]. cbn. by rewrite Hm.
  - case_read m Hm; [|by destruct (doc_ok _)].
    destruct (includes_owner_admin _); [|done]. cbn.
    destruct (orgMembers st !! memberDocId (am_orgId d) (memberId d)); cbn; done.
Qed.

(** ** Successful updates *)

(** Lookups in the small documents the handlers build, key by key. *)
Ltac doc_lookups :=
  unfold onboardingDoc, approvalDoc, memberDoc, ownerDoc, inviteDoc, orgDoc;
  repeat (rewrite lookup_union || rewrite lookup_insert || rewrite lookup_singleton
          || rewrite lookup_empty);
  repeat case_decide; simplify_eq;
  repeat match goal with |- context [?d !! ?f] => destruct (d !! f) end;
  try done.

Lemma submitOnboarding_member (ev : nat → Env) (st : Store) (a : AuthData)
    (data : OnboardingData) (d : Doc) :
  orgMembers st !! memberDocId (ob_orgId data) (uid a) = Some d →
  exec ev st (submitOnboarding (Some a) data) =
    mkResult
      (mkStore (orgs st)
         (<[memberDocId (ob_orgId data) (uid a) :=
              onboardingDoc data (now (ev 1%nat)) ∪ d]> (orgMembers st))
         (invites st))
      [WUpdate OrgMembers (memberDocId (ob_orgId data) (uid a)) (onboardingData data)]
      (Returned SuccessResponse).
Proof. intros Hd. cbn. rewrite (read_found OrgMembers _ _ _ Hd). cbn. by rewrite Hd. Qed.

(** X7: submitOnboarding by a caller who has a membership at
    [(orgId, uid)] succeeds whatever the membership's status; afterwards
    the document has status active, the given fullName and phone,
    onboardedAt the commit time, and every other field (role, orgId, uid,
    email, joinedAt, approval fields) as before. *)
Theorem submitOnboarding_updates_profile (ev : nat → Env) (st : Store) (a : AuthData)
    (data : OnboardingData) (d : Doc) :
  orgMembers st !! memberDocId (ob_orgId data) (uid a) = Some d →
  let r := exec ev st (submitOnboarding (Some a) data) in
  outcome r = Returned SuccessResponse ∧
  ∃ d', orgMembers (final r) !! memberDocId (ob_orgId data) (uid a) = Some d' ∧
        d' !! "status" = Some (VStr "active") ∧
        d' !! "fullName" = Some (VStr (fullName data)) ∧
        d' !! "phone" = Some (VStr (phone data)) ∧
        d' !! "onboardedAt" = Some (VTime (now (ev 1%nat))) ∧
        ∀ f, f ≠ "status" → f ≠ "fullName" → f ≠ "phone" → f ≠ "onboardedAt" →
             d' !! f = d !! f.
Proof.
  intros Hd r. subst r. rewrite (submitOnboarding_member _ _ _ _ _ Hd).
  cbn [outcome final orgMembers]. split; [done|].
  eexists. split; [apply lookup_insert_eq|].
  repeat split; try (by apply lookup_union_Some_l).
  intros f H1 H2 H3 H4. apply lookup_union_r. doc_lookups.
Qed.

(** X8: approveMember by an owner or admin on an existing membership
    succeeds whatever that membership's status, a member who never
    submitted the onboarding form included: the status becomes active,
    approvedAt the commit time, approvedBy the caller, and every other
    field stays as it was (no profile field is added, the role is not
    changed). *)
Theorem approveMember_activates (ev : nat → Env) (st : Store) (a : AuthData)
    (data : ApproveMemberData) (d : Doc) :
  authorized st (am_orgId data) (uid a) →
  orgMembers st !! memberDocId (am_orgId data) (memberId data) = Some d →
  let r := exec ev st (approveMember (Some a) data) in
  outcome r = Returned SuccessResponse ∧
  orgMembers (final r) !! memberDocId (am_orgId data) (memberId data) =
    Some (approvalDoc (uid a) (now (ev 1%nat)) ∪ d) ∧
  (approvalDoc (uid a) (now (ev 1%nat)) ∪ d) !! "status" = Some (VStr "active") ∧
  ∀ f, f ≠ "status" → f ≠ "approvedAt" → f ≠ "approvedBy" →
       (approvalDoc (uid a) (now (ev 1%nat)) ∪ d) !! f = d !! f.
Proof.
  intros Hauth Hd r. subst r. rewrite (approveMember_authorized _ _ _ _ _ Hauth Hd).
  cbn [outcome final orgMembers]. split; [done|].
  split; [apply lookup_insert_eq|]. split; [by apply lookup_union_Some_l|].
  intros f H1 H2 H3. apply lookup_union_r. doc_lookups.
Qed.

(** An update that keeps the role of the document it replaces keeps every
    authorisation. *)
Lemma authorized_update (st : Store) (key : string) (d d' : Doc) (orgId u : string) :
  orgMembers st !! key = Some d → d' !! "role" = d !! "role" →
  authorized st orgId u →
  authorized (mkStore (orgs st) (<[key := d']> (orgMembers st)) (invites st)) orgId u.
Proof.
  intros Hd Hrole (m & Hm & Hr). unfold authorized. cbn.
  destruct (decide (key = memberDocId orgId u)) as [->|Hne].
  - exists d'. rewrite lookup_insert_eq. split; [done|]. rewrite Hrole.
    by assert (m = d) as <- by congruence.
  - exists m. by rewrite lookup_insert_ne.
Qed.

Lemma onboardingDoc_role (data : OnboardingData) (t : Z) (d : Doc) :
  (onboardingDoc data t ∪ d) !! "role" = d !! "role".
Proof. apply lookup_union_r. doc_lookups. Qed.

Lemma approvalDoc_role (u : string) (t : Z) (d : Doc) :
  (approvalDoc u t ∪ d) !! "role" = d !! "role".
Proof. apply lookup_union_r. doc_lookups. Qed.

(** X9: submitting the same onboarding form a second time changes nothing
    in the store but the onboardedAt of the caller's membership. *)
Theorem submitOnboarding_twice (ev ev' : nat → Env) (st : Store) (a : AuthData)
    (data : OnboardingData) (d : Doc) :
  orgMembers st !! memberDocId (ob_orgId data) (uid a) = Some d →
  let key := memberDocId (ob_orgId data) (uid a) in
  let st1 := final (exec ev st (submitOnboarding (Some a) data)) in
  let r2 := exec ev' st1 (submitOnboarding (Some a) data) in
  ∃ d1, orgMembers st1 !! key = Some d1 ∧
        outcome r2 = Returned SuccessResponse ∧
        final r2 = mkStore (orgs st1)
                     (<[key := <["onboardedAt" := VTime (now (ev' 1%nat))]> d1]> (orgMembers st1))
                     (invites st1).
Proof.
  intros Hd key st1 r2. subst key st1 r2.
  rewrite (submitOnboarding_member _ _ _ _ _ Hd). cbn [final].
  eexists. split; [apply lookup_insert_eq|].
  erewrite submitOnboarding_member; [|apply lookup_insert_eq].
  cbn [outcome final orgs orgMembers invites]. split; [done|].
  f_equal. f_equal. apply map_eq. intros f. doc_lookups.
Qed.

(** X10: a second approveMember by the same caller for the same member
    changes nothing in the store but that member's approvedAt. *)
Theorem approveMember_twice (ev ev' : nat → Env) (st : Store) (a : AuthData)
    (data : ApproveMemberData) (d : Doc) :
  authorized st (am_orgId data) (uid a) →
  orgMembers st !! memberDocId (am_orgId data) (memberId data) = Some d →
  let key := memberDocId (am_orgId data) (memberId data) in
  let st1 := final (exec ev st (approveMember (Some a) data)) in
  let r2 := exec ev' st1 (approveMember (Some a) data) in
  ∃ d1, orgMembers st1 !! key = Some d1 ∧
        outcome r2 = Returned SuccessResponse ∧
        final r2 = mkStore (orgs st1)
                     (<[key := <["approvedAt" := VTime (now (ev' 1%nat))]> d1]> (orgMembers st1))
                     (invites st1).
Proof.
  intros Hauth Hd key st1 r2. subst key st1 r2.
  rewrite (approveMember_authorized _ _ _ _ _ Hauth Hd). cbn [final].
  eexists. split; [apply lookup_insert_eq|].
  erewrite approveMember_authorized;
    [|eapply authorized_update; [exact Hd|apply approvalDoc_role|exact Hauth]
     |apply lookup_insert_eq].
  cbn [outcome final orgs orgMembers invites]. split; [done|].
  f_equal. f_equal. apply map_eq. intros f. doc_lookups.
Qed.

(** X11: approval and onboarding of one member commute.  Whichever of
    approveMember (by an owner or admin) and submitOnboarding (by the
    member) runs first, both succeed and the store they leave is the
    same, each call committing at the same time in both orders. *)
Theorem approve_onboard_commute (eva evo : nat → Env) (st : Store) (p m : AuthData)
    (da : ApproveMemberData) (dob : OnboardingData) (d : Doc) :
  am_orgId da = ob_orgId dob → memberId da = uid m →
  authorized st (am_orgId da) (uid p) →
  orgMembers st !! memberDocId (ob_orgId dob) (uid m) = Some d →
  let approve_first :=
    exec evo (final (exec eva st (approveMember (Some p) da)))
         (submitOnboarding (Some m) dob) in
  let onboard_first :=
    exec eva (final (exec evo st (submitOnboarding (Some m) dob)))
         (approveMember (Some p) da) in
  outcome approve_first = Returned SuccessResponse ∧
  outcome onboard_first = Returned SuccessResponse ∧
  final approve_first = final onboard_first.
Proof.
  intros Horg Hmem Hauth Hd r1 r2. subst r1 r2.
  assert (orgMembers st !! memberDocId (am_orgId da) (memberId da) = Some d) as Hd'
    by (by rewrite Horg, Hmem).
  rewrite (approveMember_authorized _ _ _ _ _ Hauth Hd').
  rewrite (submitOnboarding_member _ _ _ _ _ Hd). cbn [final].
  erewrite submitOnboarding_member;
    [|cbn; rewrite Horg, Hmem; apply lookup_insert_eq].
  erewrite approveMember_authorized;
    [|rewrite Horg in *; eapply authorized_update;
       [exact Hd|apply onboardingDoc_role|exact Hauth]
     |cbn; rewrite Horg, Hmem; apply lookup_insert_eq].
  cbn [outcome final orgs orgMembers invites]. split; [done|]. split; [done|].
  rewrite Horg, Hmem, !insert_insert_eq. f_equal. f_equal.
  apply map_eq. intros f. doc_lookups.
Qed.

(** ** Calls one after another *)

Lemma createOrg_valid (ev : nat → Env) (st : Store) (a : AuthData) (data : CreateOrgData) :
  name data ≠ EmptyString → slug data ≠ EmptyString →
  exec ev st (createOrg (Some a) data) =
    mkResult
      (mkStore
         (<[autoId (ev 0%nat) :=
              orgDoc (autoId (ev 0%nat)) (name data) (slug data) (uid a) (now (ev 1%nat))]>
            (orgs st))
         (<[memberDocId (autoId (ev 0%nat)) (uid a) :=
              ownerDoc (autoId (ev 0%nat)) (uid a) (default EmptyString (token_email a))
                       (now (ev 2%nat))]> (orgMembers st))
         (invites st))
      [WSet Orgs (autoId (ev 0%nat))
         (orgData (autoId (ev 0%nat)) (name data) (slug data) (uid a));
       WSet OrgMembers (memberDocId (autoId (ev 0%nat)) (uid a))
         (ownerData (autoId (ev 0%nat)) (uid a) (default EmptyString (token_email a)))]
      (Returned (CreateOrgResponse (autoId (ev 0%nat)))).
Proof.
  intros Hn Hs. unfold createOrg. by rewrite (falsy_false _ Hn), (falsy_false _ Hs).
Qed.

(** X12: the caller of a successful createOrg is at once an owner of the
    new organisation as far as the permission check goes: a createInvite
    for the returned orgId by the same caller succeeds (the invitation id
    handed out being unused). *)
Theorem founder_can_invite (ev ev' : nat → Env) (st : Store) (a : AuthData)
    (data : CreateOrgData) (email role : string) :
  name data ≠ EmptyString → slug data ≠ EmptyString →
  let orgId := autoId (ev 0%nat) in
  let st1 := final (exec ev st (createOrg (Some a) data)) in
  authorized st1 orgId (uid a) ∧
  (invites st !! autoId (ev' 1%nat) = None →
   outcome (exec ev' st1 (createInvite (Some a) (mkCreateInviteData orgId email role))) =
     Returned (CreateInviteResponse (autoId (ev' 1%nat)))).
Proof.
  intros Hn Hs orgId st1. subst orgId st1.
  rewrite (createOrg_valid _ _ _ _ Hn Hs). cbn [final].
  match goal with |- authorized ?s ?o ?u ∧ _ => assert (authorized s o u) as Hauth end.
  { eexists. split; [apply lookup_insert_eq|]. by left. }
  split; [exact Hauth|]. intros Hfresh.
  by rewrite (createInvite_authorized ev' _ a (mkCreateInviteData _ email role) Hauth Hfresh).
Qed.

Lemma acceptInvite_accepts (ev : nat → Env) (st : Store) (a : AuthData)
    (data : AcceptInviteData) (inv : Doc) (o rl : Value) (e : string) :
  invites st !! inviteId data = Some inv →
  inv !! "orgId" = Some o → inv !! "role" = Some rl →
  inv !! "email" = Some (VStr e) → token_email a = Some e →
  exec ev st (acceptInvite (Some a) data) =
    mkResult
      (mkStore (orgs st)
         (<[memberDocId (template (Some o)) (uid a) :=
              memberDoc o (uid a) e rl (now (ev 1%nat))]> (orgMembers st))
         (delete (inviteId data) (invites st)))
      [WSet OrgMembers (memberDocId (template (Some o)) (uid a))
         (memberData inv (uid a) (Some e));
       WDelete Invites (inviteId data)]
      (Returned (AcceptInviteResponse (Some o))).
Proof.
  intros Hinv Ho Hrl He Ha. cbn. rewrite (read_found Invites _ _ _ Hinv).
  assert (strict_neq (inv !! "email") (token_email a) = false) as ->.
  { apply strict_neq_false. by rewrite He, Ha. }
  cbn. by rewrite Ho, Ha, Hrl.
Qed.

(** X13: an invitation round trip.  After a successful createInvite, an
    acceptInvite for the returned id by any caller whose token email is
    the invited address succeeds and returns the invitation's orgId; it
    leaves the invitations as they were before the invitation was
    created, and one membership written: that caller's, with the invited
    role and status pending_onboarding. *)
Theorem invite_then_accept (ev ev' : nat → Env) (st : Store) (a b : AuthData)
    (data : CreateInviteData) :
  authorized st (ci_orgId data) (uid a) →
  invites st !! autoId (ev 1%nat) = None →
  token_email b = Some (ci_email data) →
  let st1 := final (exec ev st (createInvite (Some a) data)) in
  let r := exec ev' st1 (acceptInvite (Some b) (mkAcceptInviteData (autoId (ev 1%nat)))) in
  outcome r = Returned (AcceptInviteResponse (Some (VStr (ci_orgId data)))) ∧
  final r = mkStore (orgs st)
              (<[memberDocId (ci_orgId data) (uid b) :=
                   memberDoc (VStr (ci_orgId data)) (uid b) (ci_email data)
                             (VStr (ci_role data)) (now (ev' 1%nat))]>
                 (orgMembers st))
              (invites st).
Proof.
  intros Hauth Hfresh Hmail st1 r. subst st1 r.
  rewrite (createInvite_authorized _ _ _ _ Hauth Hfresh). cbn [final].
  erewrite (acceptInvite_accepts ev' _ b _ _ (VStr (ci_orgId data))
              (VStr (ci_role data)) (ci_email data));
    [|apply lookup_insert_eq|done..].
  cbn [outcome final orgs orgMembers invites inviteId template]. split; [done|].
  by rewrite (delete_insert_id _ _ _ Hfresh).
Qed.

(** X14: after a successful acceptInvite of an invitation to organisation
    [o], submitOnboarding for [o] by the same caller succeeds and leaves
    the membership active with the invitation's role. *)
Theorem accept_then_onboard (ev ev' : nat → Env) (st : Store) (a : AuthData)
    (data : AcceptInviteData) (o fn ph : string) :
  outcome (exec ev st (acceptInvite (Some a) data)) =
    Returned (AcceptInviteResponse (Some (VStr o))) →
  let st1 := final (exec ev st (acceptInvite (Some a) data)) in
  let r := exec ev' st1 (submitOnboarding (Some a) (mkOnboardingData o fn ph)) in
  outcome r = Returned SuccessResponse ∧
  ∃ inv m, invites st !! inviteId data = Some inv ∧
           orgMembers (final r) !! memberDocId o (uid a) = Some m ∧
           m !! "status" = Some (VStr "active") ∧
           m !! "role" = inv !! "role" ∧
           m !! "fullName" = Some (VStr fn) ∧
           m !! "phone" = Some (VStr ph).
Proof.
  intros Hret st1 r. subst st1 r.
  destruct (acceptInvite_returned _ _ _ _ _ Hret)
    as (inv & o' & e & rl & Hinv & Ho & Hrl & _ & He & Hex).
  rewrite Hex in Hret |- *. cbn in Hret. injection Hret as ->.
  cbn [final template].
  erewrite submitOnboarding_member; [|apply lookup_insert_eq].
  cbn [outcome final orgMembers ob_orgId]. split; [done|].
  exists inv. eexists. split; [done|]. split; [apply lookup_insert_eq|].
  rewrite Hrl. repeat split; by apply lookup_union_Some_l || (by apply lookup_union_r).
Qed.

(** X15: a caller whose token carries no email never accepts an
    invitation: acceptInvite does not return, whatever the store holds,
    and leaves the store as it was. *)
Theorem acceptInvite_needs_email (ev : nat → Env) (st : Store) (a : AuthData)
    (data : AcceptInviteData) :
  token_email a = None →
  (∀ r, outcome (exec ev st (acceptInvite (Some a) data)) ≠ Returned r) ∧
  final (exec ev st (acceptInvite (Some a) data)) = st.
Proof.
  intros Hnone. split.
  - intros r Hret.
    destruct (acceptInvite_returned _ _ _ _ _ Hret) as (? & ? & e & ? & _ & _ & _ & _ & He & _).
    congruence.
  - cbn. case_read inv Hinv; [|by destruct (doc_ok _)].
    destruct (strict_neq _ _); [done|]. cbn. rewrite Hnone.
    by destruct (inv !! "orgId").
Qed.

(** X16: createInvite does not overwrite.  When the id generated for the
    new invitation is already the id of a stored invitation, the call of
    an owner or admin fails with an internal error and the store, that
    invitation included, is unchanged. *)
Theorem createInvite_id_in_use (ev : nat → Env) (st : Store) (a : AuthData)
    (data : CreateInviteData) (i : Doc) :
  authorized st (ci_orgId data) (uid a) →
  invites st !! autoId (ev 1%nat) = Some i →
  exec ev st (createInvite (Some a) data) = refused st internalError.
Proof.
  intros (m & Hm & Hrole) Hused. cbn. rewrite (read_found OrgMembers _ _ _ Hm).
  apply includes_owner_admin_true in Hrole. rewrite Hrole. cbn.
  by rewrite Hused.
Qed.

(** ** What a call leaves alone *)



Lemma createInvite_frame (ev : nat → Env) (st : Store) auth (data : CreateInviteData) :
  orgs (final (exec ev st (createInvite auth data))) = orgs st ∧
  orgMembers (final (exec ev st (createInvite auth data))) = orgMembers st.
Proof.
  destruct auth as [a|]; [|done]. cbn.
  case_read m Hm; [|by destruct (doc_ok _)].
  destruct (includes_owner_admin _); [|done]. cbn.
  by destruct (invites st !! autoId (ev 1%nat)).
Qed.

Lemma acceptInvite_frame (ev : nat → Env) (st : Store) auth (data : AcceptInviteData) :
  orgs (final (exec ev st (acceptInvite auth data))) = orgs st.
Proof.
  destruct auth as [a|]; [|done]. cbn.
  case_read inv Hinv; [|by destruct (doc_ok _)].
  destruct (strict_neq _ _); [done|]. cbn.
  destruct (inv !! "orgId"); [|done]. destruct (token_email a); [|done].
  by destruct (inv !! "role").
Qed.

(** X19: only createOrg writes organisations, and only createInvite and
    acceptInvite write invitations: a call of any other function leaves
    the collection as it was. *)
Theorem collections_written_by (ev : nat → Env) (st : Store) (req : Request) :
  let r := exec ev st (handle req) in
  (orgs (final r) ≠ orgs st → ∃ auth data, req = CreateOrg auth data) ∧
  (invites (final r) ≠ invites st →
   (∃ auth data, req = CreateInvite auth data) ∨ (∃ auth data, req = AcceptInvite auth data)).
Proof.
  intros r. subst r. destruct req as [auth d|auth d|auth d|[a|] d|[a|] d].
  - split; [eauto|]. intros Hne. exfalso. apply Hne. clear Hne. cbn.
    destruct auth as [a|]; [|done]. unfold createOrg.
    by destruct (falsy (name d) || falsy (slug d)).
  - split; [|eauto]. intros Hne. exfalso. apply Hne. apply createInvite_frame.
  - split; [|eauto]. intros Hne. exfalso. apply Hne. apply acceptInvite_frame.
  - cbn. case_read m Hm; [|by destruct (doc_ok _)]. cbn. by rewrite Hm.
  - done.
  - cbn. case_read m Hm; [|by destruct (doc_ok _)].
    destruct (includes_owner_admin _); [|done]. cbn.
    by destruct (orgMembers st !! memberDocId (am_orgId d) (memberId d)).
  - done.
Qed.

(** ** The composite membership id *)

Lemma append_assoc (s t u : string) : (s +:+ t) +:+ u = s +:+ t +:+ u.
Proof.
  induction s as [|c s IH]; [done|].
  change (String c ((s +:+ t) +:+ u) = String c (s +:+ t +:+ u)). by rewrite IH.
Qed.

(** X20: the membership id [`${orgId}_${uid}`] does not tell where the
    organisation id ends.  A caller with uid [u] is let through the
    permission check for the organisation id [o_x] by the owner or admin
    membership that the user with uid [x_u] holds in organisation [o]:
    createInvite for [o_x] by [u] then succeeds. *)
Theorem membership_id_ambiguous (ev : nat → Env) (st : Store) (o x : string) (a : AuthData)
    (email role : string) :
  authorized st o (x +:+ "_" +:+ uid a) →
  invites st !! autoId (ev 1%nat) = None →
  memberDocId (o +:+ "_" +:+ x) (uid a) = memberDocId o (x +:+ "_" +:+ uid a) ∧
  authorized st (o +:+ "_" +:+ x) (uid a) ∧
  outcome (exec ev st (createInvite (Some a)
                         (mkCreateInviteData (o +:+ "_" +:+ x) email role))) =
    Returned (CreateInviteResponse (autoId (ev 1%nat))).
Proof.
  intros Hauth Hfresh.
  assert (memberDocId (o +:+ "_" +:+ x) (uid a) = memberDocId o (x +:+ "_" +:+ uid a)) as Hkey.
  { unfold memberDocId. by rewrite !append_assoc. }
  assert (authorized st (o +:+ "_" +:+ x) (uid a)) as Hauth'.
  { unfold authorized. by rewrite Hkey. }
  split; [done|]. split; [done|].
  by rewrite (createInvite_authorized ev st a (mkCreateInviteData _ email role) Hauth' Hfresh).
Qed.

Lemma append_cons (c : ascii) (s t : string) : String c s +:+ t = String c (s +:+ t).
Proof. reflexivity. Qed.

Lemma append_empty (t : string) : EmptyString +:+ t = t.
Proof. reflexivity. Qed.

(** X21: for organisation ids without an underscore (the generated ids are
    alphanumeric) the membership id determines the organisation id and
    the uid. *)
Theorem memberDocId_injective (o o' u u' : string) :
  no_underscore o = true → no_underscore o' = true →
  memberDocId o u = memberDocId o' u' → o = o' ∧ u = u'.
Proof.
  unfold memberDocId. revert o'.
  induction o as [|c o IH]; intros [|c' o'] Ho Ho' Heq;
    rewrite ?append_cons, ?append_empty in Heq.
  - by injection Heq as ->.
  - injection Heq as <- _. cbn in Ho'. by rewrite bool_decide_eq_true_2 in Ho'.
  - injection Heq as -> _. cbn in Ho. by rewrite bool_decide_eq_true_2 in Ho.
  - injection Heq as -> Heq. cbn in Ho, Ho'.
    apply andb_true_iff in Ho as [_ Ho]. apply andb_true_iff in Ho' as [_ Ho'].
    destruct (IH o' Ho Ho' Heq) as [-> ->]. done.
Qed.

(** ** How long a call runs *)

Lemma steps_finished (n : nat) (ev : nat → Env) (st : Store) (o : Outcome) :
  steps n ev st (finished o) = (st, finished o).
Proof. revert ev. induction n as [|n IH]; intros ev; [done|]. destruct o; cbn; apply IH. Qed.

Lemma steps_within (n : nat) (p : Prog) :
  within n p →
  ∀ ev st, steps n ev st p = (final (exec ev st p), finished (outcome (exec ev st p))) ∧
           (length (writes (exec ev st p)) ≤ n)%nat.
Proof.
  induction 1 as [n r|n e|n k _ IH|n c key k _ IH|n w k _ IH]; intros ev st.
  - split; [apply (steps_finished n ev st (Returned r))|cbn; lia].
  - split; [apply (steps_finished n ev st (Threw e))|cbn; lia].
  - destruct (IH (autoId (ev 0%nat)) (λ i, ev (S i)) st) as [Hs Hl]. split; [done|].
    cbn [exec]. lia.
  - cbn [exec steps step]. destruct (read c key st) as [snap|].
    + destruct (IH snap (λ i, ev (S i)) st) as [Hs Hl]. split; [done|]. lia.
    + split; [apply (steps_finished n _ st (Threw internalError))|cbn; lia].
  - cbn [exec steps step]. destruct (commit (now (ev 0%nat)) w st) as [st'|].
    + destruct (IH (λ i, ev (S i)) st') as [Hs Hl]. split; [done|]. cbn. lia.
    + split; [apply (steps_finished n _ st (Threw internalError))|cbn; lia].
Qed.

Lemma handle_within (req : Request) : within 3 (handle req).
Proof.
  destruct req as [[a|] d|[a|] d|[a|] d|[a|] d|[a|] d]; cbn; try constructor.
  - unfold createOrg. destruct (falsy _ || falsy _); repeat constructor.
  - intros [m|]; [|constructor]. destruct (includes_owner_admin _); repeat constructor.
  - intros [inv|]; [|constructor]. destruct (strict_neq _ _); repeat constructor.
  - intros [m|]; repeat constructor.
  - intros [m|]; [|constructor]. destruct (includes_owner_admin _); repeat constructor.
Qed.

(** X22: every call, of any of the five functions and from any store, has
    finished after three operations (generated id, read or write) run
    without interference, and has committed at most two writes. *)
Theorem call_finishes_in_three (ev : nat → Env) (st : Store) (req : Request) :
  steps 3 ev st (handle req) =
    (final (exec ev st (handle req)), finished (outcome (exec ev st (handle req)))) ∧
  (length (writes (exec ev st (handle req))) ≤ 2)%nat.
Proof.
  split; [apply steps_within, handle_within|].
  destruct req as [[a|] d|[a|] d|[a|] d|[a|] d|[a|] d]; cbn; try lia.
  - unfold createOrg. destruct (falsy _ || falsy _); cbn; lia.
  - case_read m Hm; [|destruct (doc_ok _); cbn; lia].
    destruct (includes_owner_admin _); [|cbn; lia]. cbn.
    destruct (invites st !! autoId (ev 1%nat)); cbn; lia.
  - case_read inv Hinv; [|destruct (doc_ok _); cbn; lia].
    destruct (strict_neq _ _); [cbn; lia|]. cbn.
    destruct (inv !! "orgId"); [|cbn; lia]. destruct (token_email a); [|cbn; lia].
    destruct (inv !! "role"); cbn; lia.
  - case_read m Hm; [|destruct (doc_ok _); cbn; lia]. cbn. rewrite Hm. cbn. lia.
  - case_read m Hm; [|destruct (doc_ok _); cbn; lia].
    destruct (includes_owner_admin _); [|cbn; lia]. cbn.
    destruct (orgMembers st !! memberDocId (am_orgId d) (memberId d)); cbn; lia.
Qed.

(** ** Nothing but invitations is deleted *)

(** X23: no organisation and no membership is ever deleted.  From a
    reachable state on, however the calls in flight and the calls still to
    arrive interleave, every organisation id and every membership id of
    the store stays in the store. *)
Theorem documents_never_deleted (cfg : Config) (evs : list Event) :
  reachable cfg →
  dom (orgs (store cfg)) ⊆ dom (orgs (store (run evs cfg))) ∧
  dom (orgMembers (store cfg)) ⊆ dom (orgMembers (store (run evs cfg))).
Proof.
  intros Hreach. exact (run_holds_docs cfg evs Hreach).
Qed.

(** ** The shape of the stored documents is kept *)

Lemma store_shape_set_org (st : Store) (key : string) (d : Doc) :
  store_shape st → org_shape key d →
  store_shape (mkStore (<[key := d]> (orgs st)) (orgMembers st) (invites st)).
Proof.
  intros (HO & HM & HI) Hd. split; [|done]. cbn.
  intros k d' [[<- <-]|[_ Hk]]%lookup_insert_Some; [done|by eapply HO].
Qed.

Lemma store_shape_set_member (st : Store) (key : string) (m : Doc) :
  store_shape st → member_shape key m →
  store_shape (mkStore (orgs st) (<[key := m]> (orgMembers st)) (invites st)).
Proof.
  intros (HO & HM & HI) Hm. split; [done|]. split; [|done]. cbn.
  intros k m' [[<- <-]|[_ Hk]]%lookup_insert_Some; [done|by eapply HM].
Qed.

Lemma store_shape_set_invite (st : Store) (key : string) (i : Doc) :
  store_shape st → invite_shape i →
  store_shape (mkStore (orgs st) (orgMembers st) (<[key := i]> (invites st))).
Proof.
  intros (HO & HM & HI) Hi. split; [done|]. split; [done|]. cbn.
  intros k i' [[_ <-]|[_ Hk]]%lookup_insert_Some; [done|by eapply HI].
Qed.

Lemma store_shape_delete_invite (st : Store) (key : string) :
  store_shape st →
  store_shape (mkStore (orgs st) (orgMembers st) (delete key (invites st))).
Proof.
  intros (HO & HM & HI). split; [done|]. split; [done|]. cbn.
  intros k i [_ Hk]%lookup_delete_Some. by eapply HI.
Qed.

Lemma ownerDoc_shape (orgId u email : string) (t : Z) :
  member_shape (memberDocId orgId u) (ownerDoc orgId u email t).
Proof.
  split; [by exists orgId, u|]. split; [by exists email|]. split.
  - right. split; [done|]. by left.
  - by left.
Qed.

Lemma orgDoc_shape (orgId nm sl u : string) (t : Z) :
  nm ≠ EmptyString → sl ≠ EmptyString → org_shape orgId (orgDoc orgId nm sl u t).
Proof.
  intros Hn Hs. split; [done|]. split; [done|].
  split; [by exists nm|]. split; [by exists sl|]. by exists u.
Qed.

Lemma inviteDoc_shape (orgId email role inviter : string) (t : Z) :
  invite_shape (inviteDoc orgId email role inviter t).
Proof.
  split; [by exists orgId|]. split; [by exists email|].
  split; [by exists role|]. split; [by exists inviter|done].
Qed.

Lemma memberDoc_shape (o e u rl : string) (t : Z) :
  member_shape (memberDocId o u) (memberDoc (VStr o) u e (VStr rl) t).
Proof.
  split; [by exists o, u|]. split; [by exists e|]. split.
  - left. split; [done|]. split; [by exists rl|done].
  - by left.
Qed.

Lemma onboardingDoc_shape (key : string) (data : OnboardingData) (t : Z) (old : Doc) :
  member_shape key old → member_shape key (onboardingDoc data t ∪ old).
Proof.
  intros (Hkey & Hmail & _ & _).
  assert (∀ f, f ≠ "fullName" → f ≠ "phone" → f ≠ "status" → f ≠ "onboardedAt" →
               (onboardingDoc data t ∪ old) !! f = old !! f) as Hsame.
  { intros f ????. apply lookup_union_r. doc_lookups. }
  assert (∀ f v, onboardingDoc data t !! f = Some v →
                 (onboardingDoc data t ∪ old) !! f = Some v) as Hnew.
  { intros f v. apply lookup_union_Some_l. }
  split; [|split; [|split]].
  - unfold member_key_ok. by rewrite !Hsame.
  - by rewrite Hsame.
  - right. split; [by apply Hnew|]. right. left. eexists. by apply Hnew.
  - right. split; [eexists; by apply Hnew|].
    split; eexists; by apply Hnew.
Qed.

Lemma approvalDoc_shape (key u : string) (t : Z) (old : Doc) :
  member_shape key old → member_shape key (approvalDoc u t ∪ old).
Proof.
  intros (Hkey & Hmail & _ & Hprofile).
  assert (∀ f, f ≠ "status" → f ≠ "approvedAt" → f ≠ "approvedBy" →
               (approvalDoc u t ∪ old) !! f = old !! f) as Hsame.
  { intros f ???. apply lookup_union_r. doc_lookups. }
  assert (∀ f v, approvalDoc u t !! f = Some v →
                 (approvalDoc u t ∪ old) !! f = Some v) as Hnew.
  { intros f v. apply lookup_union_Some_l. }
  split; [|split; [|split]].
  - unfold member_key_ok. by rewrite !Hsame.
  - by rewrite Hsame.
  - right. split; [by apply Hnew|]. right. right. eexists. by apply Hnew.
  - unfold member_profile_ok. by rewrite !Hsame.
Qed.

Lemma falsy_or_false (s1 s2 : string) :
  falsy s1 || falsy s2 = false → s1 ≠ EmptyString ∧ s2 ≠ EmptyString.
Proof.
  unfold falsy. intros [H1 H2]%orb_false_iff.
  by apply bool_decide_eq_false in H1, H2.
Qed.

Lemma handle_shape (req : Request) : keeps shape_snapshot shape_write (handle req).
Proof.
  destruct req as [[a|] d|[a|] d|[a|] d|[a|] d|[a|] d]; cbn; try constructor.
  - unfold createOrg. destruct (falsy _ || falsy _) eqn:Hf; [constructor|].
    apply falsy_or_false in Hf as [Hn Hs].
    constructor. intros orgId. constructor; [|constructor; [|constructor]].
    + intros t st st' Hst [= <-]. apply store_shape_set_org; [done|].
      by apply (orgDoc_shape orgId (name d) (slug d) (uid a) t).
    + intros t st st' Hst [= <-]. apply store_shape_set_member; [done|].
      apply (ownerDoc_shape orgId (uid a) _ t).
  - intros [m|] _; [|constructor]. destruct (includes_owner_admin _); [|constructor].
    constructor. intros id. constructor; [|constructor].
    intros t st st' Hst Hc. cbn in Hc. destruct (invites st !! id); [done|].
    injection Hc as <-. apply store_shape_set_invite; [done|].
    apply (inviteDoc_shape (ci_orgId d) (ci_email d) (ci_role d) (uid a) t).
  - intros [inv|] Hinv; [|constructor]. destruct (strict_neq _ _); [constructor|].
    cbn in Hinv. destruct Hinv as ([o Ho] & _ & [rl Hrole] & _).
    constructor; [|constructor; [|constructor]].
    + intros t st st' Hst Hc. cbn in Hc. rewrite Ho, Hrole in Hc.
      destruct (token_email a) as [e|]; [|done].
      cbn in Hc. injection Hc as <-. apply store_shape_set_member; [done|].
      apply (memberDoc_shape o e (uid a) rl t).
    + intros t st st' Hst [= <-]. by apply store_shape_delete_invite.
  - intros [m|] _; [|constructor]. constructor; [|constructor].
    intros t st st' Hst Hc. cbn in Hc.
    destruct (orgMembers st !! _) as [old|] eqn:Hold; [|done]. injection Hc as <-.
    apply store_shape_set_member; [done|].
    apply (onboardingDoc_shape _ d t old). destruct Hst as (_ & HM & _). by eapply HM.
  - intros [m|] _; [|constructor]. destruct (includes_owner_admin _); [|constructor].
    constructor; [|constructor].
    intros t st st' Hst Hc. cbn in Hc.
    destruct (orgMembers st !! _) as [old|] eqn:Hold; [|done]. injection Hc as <-.
    apply store_shape_set_member; [done|].
    apply (approvalDoc_shape _ (uid a) t old). destruct Hst as (_ & HM & _). by eapply HM.
Qed.

Lemma shape_snapshot_read (st : Store) (c : Collection) (key : string) :
  store_shape st → shape_snapshot c (collection c st !! key).
Proof.
  intros (_ & _ & HI). destruct c; cbn; try done.
  destruct (invites st !! key) as [i|] eqn:Hi; [|done]. by eapply HI.
Qed.

Lemma reachable_shape (cfg : Config) : reachable cfg → store_shape (store cfg).
Proof.
  intros [evs <-].
  apply (run_keeps store_shape shape_snapshot shape_write any_request).
  - intros st c key. apply shape_snapshot_read.
  - intros t w st st' Hst Hw. by apply Hw.
  - intros req _. apply handle_shape.
  - apply admits_any.
  - split; [|constructor].
    split; [|split]; intros k d Hk; cbn in Hk; by rewrite lookup_empty in Hk.
Qed.



(** X26: in every reachable state every stored invitation has status
    pending (an accepted invitation is deleted, never marked), and its
    orgId, email and invitedBy are strings. *)
Theorem invitations_always_pending (cfg : Config) (key : string) (i : Doc) :
  reachable cfg → invites (store cfg) !! key = Some i →
  i !! "status" = Some (VStr "pending") ∧
  is_string (i !! "orgId") ∧ is_string (i !! "email") ∧ is_string (i !! "invitedBy").
Proof.
  intros (_ & _ & HI)%reachable_shape Hi.
  destruct (HI key i Hi) as (Ho & He & _ & Hby & Hst). done.
Qed.

(** X27: in every reachable state an organisation stored under an id has
    that id as its id field, status active, a non-empty name and a
    non-empty slug, and an ownerId. *)
Theorem organisations_well_formed (cfg : Config) (key : string) (d : Doc) :
  reachable cfg → orgs (store cfg) !! key = Some d →
  d !! "id" = Some (VStr key) ∧
  d !! "status" = Some (VStr "active") ∧
  is_nonempty_string (d !! "name") ∧
  is_nonempty_string (d !! "slug") ∧
  is_string (d !! "ownerId").
Proof. intros (HO & _)%reachable_shape Hd. by apply HO. Qed.

(** X28: in a reachable store, acceptInvite by a caller whose token email
    is the email of the invitation succeeds and returns the invitation's
    orgId: no invitation the handlers stored makes the membership write
    fail. *)
Theorem acceptInvite_succeeds_on_match (cfg : Config) (ev : nat → Env) (a : AuthData)
    (data : AcceptInviteData) (inv : Doc) :
  reachable cfg →
  invites (store cfg) !! inviteId data = Some inv →
  inv !! "email" = VStr <$> token_email a →
  outcome (exec ev (store cfg) (acceptInvite (Some a) data)) =
    Returned (AcceptInviteResponse (inv !! "orgId")).
Proof.
  intros (_ & _ & HI)%reachable_shape Hinv Hmail.
  destruct (HI _ _ Hinv) as ([o Ho] & [e He] & [rl Hrl] & _).
  destruct (token_email a) as [e'|] eqn:Ha; [|by rewrite He in Hmail].
  rewrite He in Hmail; injection Hmail as ->.
  by erewrite acceptInvite_accepts; [rewrite Ho|..].
Qed.


(** ** The further properties at the concrete history *)

Lemma accepted_U1_authorized : authorized Scenario.accepted "O1" "U1".
Proof. exists (ownerDoc "O1" "U1" "a@x.com" 102). split; [reflexivity|by left]. Defined.

Lemma invited_U1_authorized : authorized Scenario.invited "O1" "U1".
Proof. exists (ownerDoc "O1" "U1" "a@x.com" 102). split; [reflexivity|by left]. Defined.

Lemma unauthenticated_refused_witness :
  ∃ msg, handle (SubmitOnboarding None Scenario.bob) =
           Throw (mkHttpsError unauthenticated msg) ∧
         ∀ ev st, exec ev st (handle (SubmitOnboarding None Scenario.bob)) =
                  refused st (mkHttpsError unauthenticated msg).
Proof. apply (unauthenticated_refused (SubmitOnboarding None Scenario.bob)). reflexivity. Defined.


Lemma failed_call_writes_nothing_witness :
  final (exec (Scenario.clock "none") Scenario.founded
           (handle (AcceptInvite (Some Scenario.U2) Scenario.accept_I1))) = Scenario.founded ∧
  writes (exec (Scenario.clock "none") Scenario.founded
            (handle (AcceptInvite (Some Scenario.U2) Scenario.accept_I1))) = [].
Proof.
  apply (failed_call_writes_nothing (Scenario.clock "none") Scenario.founded
           (AcceptInvite (Some Scenario.U2) Scenario.accept_I1)
           (mkHttpsError not_found "Invitation not found or expired.")).
  reflexivity.
Defined.

Lemma submitOnboarding_updates_profile_witness :
  let r := exec (Scenario.clock "none") Scenario.accepted
             (submitOnboarding (Some Scenario.U2) Scenario.bob) in
  outcome r = Returned SuccessResponse ∧
  ∃ d', orgMembers (final r) !! "O1_U2" = Some d' ∧
        d' !! "status" = Some (VStr "active") ∧
        d' !! "fullName" = Some (VStr "Bob") ∧
        d' !! "phone" = Some (VStr "555-1234") ∧
        d' !! "onboardedAt" = Some (VTime 101) ∧
        ∀ f, f ≠ "status" → f ≠ "fullName" → f ≠ "phone" → f ≠ "onboardedAt" →
             d' !! f = Cases.pending_doc !! f.
Proof.
  apply (submitOnboarding_updates_profile (Scenario.clock "none") Scenario.accepted
           Scenario.U2 Scenario.bob Cases.pending_doc).
  reflexivity.
Defined.

Lemma approveMember_activates_witness :
  let r := exec (Scenario.clock "none") Scenario.accepted
             (approveMember (Some Scenario.U1) Scenario.approve_U2) in
  outcome r = Returned SuccessResponse ∧
  orgMembers (final r) !! "O1_U2" = Some (approvalDoc "U1" 101 ∪ Cases.pending_doc) ∧
  (approvalDoc "U1" 101 ∪ Cases.pending_doc) !! "status" = Some (VStr "active") ∧
  ∀ f, f ≠ "status" → f ≠ "approvedAt" → f ≠ "approvedBy" →
       (approvalDoc "U1" 101 ∪ Cases.pending_doc) !! f = Cases.pending_doc !! f.
Proof.
  apply (approveMember_activates (Scenario.clock "none") Scenario.accepted Scenario.U1
           Scenario.approve_U2 Cases.pending_doc).
  - exact accepted_U1_authorized.
  - reflexivity.
Defined.

Lemma submitOnboarding_twice_witness :
  let st1 := final (exec (Scenario.clock "none") Scenario.accepted
                      (submitOnboarding (Some Scenario.U2) Scenario.bob)) in
  let r2 := exec (Scenario.clock "late") st1 (submitOnboarding (Some Scenario.U2) Scenario.bob) in
  ∃ d1, orgMembers st1 !! "O1_U2" = Some d1 ∧
        outcome r2 = Returned SuccessResponse ∧
        final r2 = mkStore (orgs st1)
                     (<["O1_U2" := <["onboardedAt" := VTime 101]> d1]> (orgMembers st1))
                     (invites st1).
Proof.
  apply (submitOnboarding_twice (Scenario.clock "none") (Scenario.clock "late")
           Scenario.accepted Scenario.U2 Scenario.bob Cases.pending_doc).
  reflexivity.
Defined.

Lemma approveMember_twice_witness :
  let st1 := final (exec (Scenario.clock "none") Scenario.accepted
                      (approveMember (Some Scenario.U1) Scenario.approve_U2)) in
  let r2 := exec (Scenario.clock "late") st1
              (approveMember (Some Scenario.U1) Scenario.approve_U2) in
  ∃ d1, orgMembers st1 !! "O1_U2" = Some d1 ∧
        outcome r2 = Returned SuccessResponse ∧
        final r2 = mkStore (orgs st1)
                     (<["O1_U2" := <["approvedAt" := VTime 101]> d1]> (orgMembers st1))
                     (invites st1).
Proof.
  apply (approveMember_twice (Scenario.clock "none") (Scenario.clock "late")
           Scenario.accepted Scenario.U1 Scenario.approve_U2 Cases.pending_doc).
  - exact accepted_U1_authorized.
  - reflexivity.
Defined.

Lemma approve_onboard_commute_witness :
  let approve_first :=
    exec (Scenario.clock "none")
         (final (exec (Scenario.clock "none") Scenario.accepted
                   (approveMember (Some Scenario.U1) Scenario.approve_U2)))
         (submitOnboarding (Some Scenario.U2) Scenario.bob) in
  let onboard_first :=
    exec (Scenario.clock "none")
         (final (exec (Scenario.clock "none") Scenario.accepted
                   (submitOnboarding (Some Scenario.U2) Scenario.bob)))
         (approveMember (Some Scenario.U1) Scenario.approve_U2) in
  outcome approve_first = Returned SuccessResponse ∧
  outcome onboard_first = Returned SuccessResponse ∧
  final approve_first = final onboard_first.
Proof.
  apply (approve_onboard_commute (Scenario.clock "none") (Scenario.clock "none")
           Scenario.accepted Scenario.U1 Scenario.U2 Scenario.approve_U2 Scenario.bob
           Cases.pending_doc).
  - reflexivity.
  - reflexivity.
  - exact accepted_U1_authorized.
  - reflexivity.
Defined.

Lemma founder_can_invite_witness :
  authorized Scenario.founded "O1" "U1" ∧
  outcome (exec (Scenario.clock "I1") Scenario.founded
             (createInvite (Some Scenario.U1) (mkCreateInviteData "O1" "b@x.com" "staff"))) =
    Returned (CreateInviteResponse "I1").
Proof.
  destruct (founder_can_invite (Scenario.clock "O1") (Scenario.clock "I1") emptyStore
              Scenario.U1 Scenario.acme "b@x.com" "staff") as [Hauth Hinvite].
  - discriminate.
  - discriminate.
  - split; [exact Hauth|]. apply Hinvite. reflexivity.
Defined.

Lemma invite_then_accept_witness :
  let st1 := final (exec (Scenario.clock "I1") Scenario.founded
                      (createInvite (Some Scenario.U1) Scenario.invite_b)) in
  let r := exec (Scenario.clock "none") st1
             (acceptInvite (Some Scenario.U2) (mkAcceptInviteData "I1")) in
  outcome r = Returned (AcceptInviteResponse (Some (VStr "O1"))) ∧
  final r = mkStore (orgs Scenario.founded)
              (<["O1_U2" := Cases.pending_doc]> (orgMembers Scenario.founded))
              (invites Scenario.founded).
Proof.
  apply (invite_then_accept (Scenario.clock "I1") (Scenario.clock "none") Scenario.founded
           Scenario.U1 Scenario.U2 Scenario.invite_b).
  - exact founded_U1_authorized.
  - reflexivity.
  - reflexivity.
Defined.

Lemma accept_then_onboard_witness :
  let st1 := final (exec (Scenario.clock "none") Scenario.invited
                      (acceptInvite (Some Scenario.U2) Scenario.accept_I1)) in
  let r := exec (Scenario.clock "none") st1
             (submitOnboarding (Some Scenario.U2) (mkOnboardingData "O1" "Bob" "555-1234")) in
  outcome r = Returned SuccessResponse ∧
  ∃ inv m, invites Scenario.invited !! "I1" = Some inv ∧
           orgMembers (final r) !! "O1_U2" = Some m ∧
           m !! "status" = Some (VStr "active") ∧
           m !! "role" = inv !! "role" ∧
           m !! "fullName" = Some (VStr "Bob") ∧
           m !! "phone" = Some (VStr "555-1234").
Proof.
  apply (accept_then_onboard (Scenario.clock "none") (Scenario.clock "none") Scenario.invited
           Scenario.U2 Scenario.accept_I1 "O1" "Bob" "555-1234").
  reflexivity.
Defined.

Lemma acceptInvite_needs_email_witness :
  (∀ r, outcome (exec (Scenario.clock "none") Scenario.invited
                   (acceptInvite (Some Cases.U3) Scenario.accept_I1)) ≠ Returned r) ∧
  final (exec (Scenario.clock "none") Scenario.invited
           (acceptInvite (Some Cases.U3) Scenario.accept_I1)) = Scenario.invited.
Proof.
  apply (acceptInvite_needs_email (Scenario.clock "none") Scenario.invited Cases.U3
           Scenario.accept_I1).
  reflexivity.
Defined.

Lemma createInvite_id_in_use_witness :
  exec (Scenario.clock "I1") Scenario.invited
       (createInvite (Some Scenario.U1) Scenario.invite_a) =
    refused Scenario.invited internalError.
Proof.
  apply (createInvite_id_in_use (Scenario.clock "I1") Scenario.invited Scenario.U1
           Scenario.invite_a Cases.invite_I1).
  - exact invited_U1_authorized.
  - reflexivity.
Defined.

Lemma membership_id_ambiguous_witness :
  memberDocId "O1_eve" "U3" = memberDocId "O1" "eve_U3" ∧
  authorized Cases.eve_founded "O1_eve" "U3" ∧
  outcome (exec (Scenario.clock "I1") Cases.eve_founded
             (createInvite (Some Cases.U3) (mkCreateInviteData "O1_eve" "z@x.com" "admin"))) =
    Returned (CreateInviteResponse "I1").
Proof.
  apply (membership_id_ambiguous (Scenario.clock "I1") Cases.eve_founded "O1" "eve" Cases.U3
           "z@x.com" "admin").
  - exists (ownerDoc "O1" "eve_U3" "e@x.com" 102). split; [reflexivity|by left].
  - reflexivity.
Defined.

Lemma memberDocId_injective_witness :
  memberDocId "O1" "U1" = "O1_U1" ∧ "O1" = "O1" ∧ "U1" = "U1".
Proof.
  split; [reflexivity|].
  apply (memberDocId_injective "O1" "O1" "U1" "U1"); reflexivity.
Defined.

Lemma documents_never_deleted_witness :
  reachable (run Scenario.setup initial) ∧
  dom (orgs (store (run Scenario.setup initial)))
    ⊆ dom (orgs (store (run Cases.accept_once (run Scenario.setup initial)))) ∧
  dom (orgMembers (store (run Scenario.setup initial)))
    ⊆ dom (orgMembers (store (run Cases.accept_once (run Scenario.setup initial)))).
Proof.
  split; [exact setup_reachable|].
  apply (documents_never_deleted (run Scenario.setup initial) Cases.accept_once).
  exact setup_reachable.
Defined.




Lemma invitations_always_pending_witness :
  inviteDoc "O1" "b@x.com" "staff" "U1" 105 !! "status" = Some (VStr "pending") ∧
  is_string (inviteDoc "O1" "b@x.com" "staff" "U1" 105 !! "orgId") ∧
  is_string (inviteDoc "O1" "b@x.com" "staff" "U1" 105 !! "email") ∧
  is_string (inviteDoc "O1" "b@x.com" "staff" "U1" 105 !! "invitedBy").
Proof.
  apply (invitations_always_pending (run Scenario.setup initial) "I1").
  - exact setup_reachable.
  - reflexivity.
Defined.

Lemma organisations_well_formed_witness :
  orgDoc "O1" "Acme" "acme" "U1" 101 !! "id" = Some (VStr "O1") ∧
  orgDoc "O1" "Acme" "acme" "U1" 101 !! "status" = Some (VStr "active") ∧
  is_nonempty_string (orgDoc "O1" "Acme" "acme" "U1" 101 !! "name") ∧
  is_nonempty_string (orgDoc "O1" "Acme" "acme" "U1" 101 !! "slug") ∧
  is_string (orgDoc "O1" "Acme" "acme" "U1" 101 !! "ownerId").
Proof.
  apply (organisations_well_formed (run Scenario.setup initial) "O1").
  - exact setup_reachable.
  - reflexivity.
Defined.

Lemma acceptInvite_succeeds_on_match_witness :
  outcome (exec (Scenario.clock "none") (store (run Scenario.setup initial))
             (acceptInvite (Some Scenario.U2) Scenario.accept_I1)) =
    Returned (AcceptInviteResponse
                (inviteDoc "O1" "b@x.com" "staff" "U1" 105 !! "orgId")).
Proof.
  apply (acceptInvite_succeeds_on_match (run Scenario.setup initial) (Scenario.clock "none")
           Scenario.U2 Scenario.accept_I1 (inviteDoc "O1" "b@x.com" "staff" "U1" 105)).
  - exact setup_reachable.
  - reflexivity.
  - reflexivity.
Defined.

